(** * RPG-worldmap: the procedural world generator

    A shallow embedding of [src/services/worldEngine.ts] (classes [PRNG] and
    [WorldGenerator]) and of the types of [src/types.ts] it uses, followed by
    the properties of the generator stated in the specification.

    Conventions of the embedding.
    - A JavaScript [number] is an IEEE-754 binary64 value: Rocq's primitive
      [float].  Arithmetic and comparisons are the primitive ones; decimal
      literals are rounded to the nearest double exactly as the JavaScript
      parser does.
    - [Math.floor] is fully determined by ECMAScript and is defined below.
      [Math.sin] is only "implementation-approximated" there: it is a
      parameter of the development ([Math_sin]).
    - Tile coordinates are integers ([Z]); the number they denote is
      [Z2number].  The template literal [`${x},${y}`] renders them in
      decimal ([coordKey]), which is what JavaScript prints for the safe
      integers; statements that depend on the text of a key are made for
      safe integers.
    - A [Map<string, V>] is an insertion-ordered association list without
      duplicate keys ([JSMap]).
    - Methods that mutate [this] return the new object state.

    The embedding also covers [StorageService]'s sprite library (the parsed
    content of [localStorage]) and, of the [WorldRenderer] component, the
    inventory updaters, the collision and portal logic and the explored
    rectangle; the table [OBJECT_ART] of [../constants] is a parameter. *)

From Stdlib Require Import Floats ZArith List String Ascii Bool Lia.
From Stdlib Require Import DecimalString DecimalZ.
Import ListNotations.

Set Warnings "-inexact-float".

(* ------------------------------------------------------------------ *)
(** ** JavaScript numbers *)

Module JS.

(** The Number whose value is the integer [z] (the nearest double when [z]
    is not representable; every integer below 2^53 in magnitude is). *)
Definition Z2number (z : Z) : float :=
  SF2Prim (binary_normalize prec emax z 0%Z false).

(** [Math.floor]: the greatest integral Number not above the argument;
    NaN, the infinities and the zeros are returned unchanged.  A finite
    double [(-1)^s * m * 2^e] with [e >= 0] is already integral. *)
Definition Math_floor (x : float) : float :=
  match Prim2SF x with
  | S754_finite s m e =>
      if (0 <=? e)%Z then x
      else Z2number (Z.shiftr (cond_Zopp s (Zpos m)) (- e))
  | _ => x
  end.

(** [ToInt32] and [ToUint32] on integral values, as applied by the
    operators [^] and [>>> 0]. *)
Definition ToInt32 (z : Z) : Z := ((z + 2 ^ 31) mod 2 ^ 32 - 2 ^ 31)%Z.
Definition ToUint32 (z : Z) : Z := (z mod 2 ^ 32)%Z.

(** [str.charCodeAt(i)] for the character [c] found at index [i].  A
    string is a [string] of Rocq: its code units are those from 0 to 255
    (U+0000 to U+00FF); seeds with a code unit above 255 are outside the
    embedding. *)
Definition charCodeAt (c : ascii) : Z := Z.of_N (N_of_ascii c).

(** [isNaN] and [isFinite] (neither NaN nor an infinity). *)
Definition isNaN (x : float) : bool :=
  match Prim2SF x with S754_nan => true | _ => false end.

Definition isFinite (x : float) : bool :=
  match Prim2SF x with
  | S754_zero _ | S754_finite _ _ _ => true
  | _ => false
  end.

(** A binary64 value in the closed interval from 0 to 1: a zero, or a
    positive number whose exponent is below that of 1, or 1 itself. *)
Definition inUnitSF (r : spec_float) : Prop :=
  match r with
  | S754_zero _ => True
  | S754_finite false m e => (e < -52 \/ (e = -52 /\ Zpos m <= 2 ^ 52))%Z
  | _ => False
  end.

(** The same with 1 excluded. *)
Definition belowOneSF (r : spec_float) : Prop :=
  match r with
  | S754_zero _ => True
  | S754_finite false m e => (e < -52)%Z
  | _ => False
  end.

(** The finite numbers that are not negative, or are below [-2^-53]. *)
Definition strictDomainSF (x : spec_float) : Prop :=
  match x with
  | S754_zero _ => True
  | S754_finite false _ _ => True
  | S754_finite true m e =>
      (-105 < e \/ (e = -105 /\ 2 ^ 52 < Zpos m))%Z
  | _ => False
  end.

(** The negative numbers from [-2^-54] on: those whose distance to 0 is at
    most [2^-54]. *)
Definition roundsToOneSF (x : spec_float) : Prop :=
  match x with
  | S754_finite true m e => (e < -106 \/ (e = -106 /\ Zpos m <= 2 ^ 52))%Z
  | _ => False
  end.

(** A number that is not NaN: it compares with every such number. *)
Definition ordered (a : float) : Prop := Prim2SF a <> S754_nan.

(** [Number.isSafeInteger(z)]: the integers of magnitude at most
    [2^53 - 1]; each is a Number, and no other integer rounds to it. *)
Definition Number_isSafeInteger (z : Z) : Prop :=
  (- (2 ^ 53 - 1) <= z <= 2 ^ 53 - 1)%Z.

(** [`${z}`]: an integral Number printed in decimal, with a leading minus
    sign when negative.  That is what the template literal prints for the
    safe integers ([Number_isSafeInteger]); beyond them it prints the
    shortest digits that read back as the same double, and the exponent
    form from [1e21] on, which this definition does not follow. *)
Definition Number_toString (z : Z) : string :=
  NilZero.string_of_int (Z.to_int z).

End JS.

Import JS.

(* ------------------------------------------------------------------ *)
(** ** [Map<string, V>] *)

Module JSMap.

Section WithValues.
Context {V : Type}.

Definition t := list (string * V).

Definition empty : t := [].

(** [m.set(k, v)]: an existing key keeps its position and takes the new
    value; a new key is appended. *)
Fixpoint set (k : string) (v : V) (m : t) : t :=
  match m with
  | [] => [(k, v)]
  | (k', v') :: rest =>
      if String.eqb k k' then (k', v) :: rest
      else (k', v') :: set k v rest
  end.

Fixpoint get (k : string) (m : t) : option V :=
  match m with
  | [] => None
  | (k', v') :: rest => if String.eqb k k' then Some v' else get k rest
  end.

Definition has (k : string) (m : t) : bool :=
  match get k m with Some _ => true | None => false end.

(** [Array.from(m.entries())]: the entries in insertion order. *)
Definition entries (m : t) : list (string * V) := m.

(** [new Map(es)]: the pairs are [set] one after the other, starting
    from the empty map. *)
Definition build (acc : t) (es : list (string * V)) : t :=
  fold_left (fun m e => set (fst e) (snd e) m) es acc.

Definition of_entries (es : list (string * V)) : t := build empty es.

Definition keys (m : t) : list string := map fst m.

End WithValues.

Arguments t : clear implicits.

End JSMap.

(* ------------------------------------------------------------------ *)
(** ** [src/types.ts] *)

Module Sprite.

Record PortalConfig := {
  targetSeed : string;
  targetX : Z;
  targetY : Z
}.

(** [CustomSprite extends PixelArtMatrix]. *)
Record CustomSprite := {
  width : Z;
  height : Z;
  palette : list (Z * string);
  data : list Z;
  collision : option bool;
  portal : option PortalConfig;
  id : string;
  name : string;
  createdAt : Z
}.

End Sprite.

Abbreviation CustomSprite := Sprite.CustomSprite.

Inductive TileType :=
  | DEEP_WATER | WATER | SAND | GRASS | FOREST | DIRT | STONE | MOUNTAIN | SNOW.

Inductive ObjectType :=
  | NONE | TREE_OAK | ROCK_SMALL | FLOWER_RED | FLOWER_BLUE | HOUSE_SMALL.

(** [object: ObjectType | null] is [option ObjectType] ([null] is [None]);
    [customSprite?: CustomSprite] is [option CustomSprite]. *)
Record WorldTile := {
  x : Z;
  y : Z;
  terrain : TileType;
  biome : string;
  object : option ObjectType;
  customSprite : option CustomSprite;
  variant : float
}.

Definition TileType_eqb (a b : TileType) : bool :=
  match a, b with
  | DEEP_WATER, DEEP_WATER | WATER, WATER | SAND, SAND | GRASS, GRASS
  | FOREST, FOREST | DIRT, DIRT | STONE, STONE | MOUNTAIN, MOUNTAIN
  | SNOW, SNOW => true
  | _, _ => false
  end.

(* ------------------------------------------------------------------ *)
(** ** [src/services/worldEngine.ts] *)

Open Scope float_scope.

(** *** class [PRNG] *)

Record PRNG := { seed : Z }.

(** The loop body of [hashString]: [hash = (hash * 33) ^ str.charCodeAt(i)].
    The product is exact (the operand is an int32 or 5381) and [^] applies
    [ToInt32] to both operands. *)
Fixpoint hashLoop (str : string) (hash : Z) : Z :=
  match str with
  | EmptyString => hash
  | String c rest =>
      hashLoop rest (Z.lxor (ToInt32 (hash * 33)) (ToInt32 (charCodeAt c)))
  end.

(** [hashString(str)], ending in [hash >>> 0]. *)
Definition hashString (str : string) : Z := ToUint32 (hashLoop str 5381).

(** [new PRNG(seedStr)]. *)
Definition new_PRNG (seedStr : string) : PRNG := {| seed := hashString seedStr |}.

Section Platform.

(** [Math.sin] of the host. *)
Variable Math_sin : float -> float.

(** [noise(x, y, layer)]. *)
Definition noise (this : PRNG) (x y layer : float) : float :=
  let n :=
    Math_sin (x * 12.9898 + y * 78.233 + Z2number (seed this) + layer * 131.2)
    * 43758.5453 in
  n - Math_floor n.

Definition lerp (a b t : float) : float := a + t * (b - a).
Definition smooth (t : float) : float := t * t * (3 - 2 * t).

(** [smoothNoise(x, y)]; [noise] is called with its default layer 0. *)
Definition smoothNoise (this : PRNG) (x y : float) : float :=
  let floorX := Math_floor x in
  let floorY := Math_floor y in
  let s := noise this floorX floorY 0 in
  let t := noise this (floorX + 1) floorY 0 in
  let u := noise this floorX (floorY + 1) 0 in
  let v := noise this (floorX + 1) (floorY + 1) 0 in
  let recX := x - floorX in
  let recY := y - floorY in
  lerp (lerp s t (smooth recX)) (lerp u v (smooth recX)) (smooth recY).

End Platform.

(** *** class [WorldGenerator] *)

Record WorldGenerator := {
  prng : PRNG;
  placedObjects : JSMap.t CustomSprite
}.

(** [new WorldGenerator(seed)]. *)
Definition new_WorldGenerator (seed : string) : WorldGenerator :=
  {| prng := new_PRNG seed; placedObjects := JSMap.empty |}.

(** The key [`${x},${y}`], for safe integers [x] and [y] (see
    [Number_toString]). *)
Definition coordKey (x y : Z) : string :=
  (Number_toString x ++ "," ++ Number_toString y)%string.

Definition placeObject (this : WorldGenerator) (x y : Z) (sprite : CustomSprite)
  : WorldGenerator :=
  {| prng := prng this;
     placedObjects := JSMap.set (coordKey x y) sprite (placedObjects this) |}.

Definition serializePlacedObjects (this : WorldGenerator)
  : list (string * CustomSprite) :=
  JSMap.entries (placedObjects this).

Definition deserializePlacedObjects (this : WorldGenerator)
  (entries : list (string * CustomSprite)) : WorldGenerator :=
  {| prng := prng this; placedObjects := JSMap.of_entries entries |}.

(** The three decision blocks of [getTile].  Each assigns one local
    variable; it is a function of the value the variable holds on entry
    and of the values the block reads, and returns the value held on
    exit. *)

(** "Biome Determination": the chain ends in an [else] and assigns [biome]
    on every path. *)
Definition biomeDetermination (biome : string) (biomeNoise : float) : string :=
  if biomeNoise <? 0.15 then "DESERT"
  else if biomeNoise <? 0.30 then "SAVANNA"
  else if biomeNoise <? 0.45 then "GRASSLAND"
  else if biomeNoise <? 0.65 then "RAINFOREST"
  else if biomeNoise <? 0.85 then "TAIGA"
  else "TUNDRA".

(** "Terrain Determination based on Biome + Elevation": the [switch]
    assigns [terrain] in every [case] and in [default]. *)
Definition terrainDetermination
  (terrain : TileType) (biome : string) (elevation : float) : TileType :=
  if (biome =? "DESERT")%string then
    if elevation <? 0.3 then WATER
    else if elevation <? 0.4 then SAND
    else if elevation <? 0.8 then SAND
    else STONE
  else if (biome =? "SAVANNA")%string then
    if elevation <? 0.35 then WATER
    else if elevation <? 0.45 then SAND
    else GRASS
  else if (biome =? "GRASSLAND")%string then
    if elevation <? 0.35 then WATER
    else if elevation <? 0.40 then SAND
    else if elevation <? 0.8 then GRASS
    else DIRT
  else if (biome =? "RAINFOREST")%string then
    if elevation <? 0.30 then DEEP_WATER
    else if elevation <? 0.40 then WATER
    else if elevation <? 0.45 then SAND
    else if elevation <? 0.75 then FOREST
    else GRASS
  else if (biome =? "TAIGA")%string then
    if elevation <? 0.35 then WATER
    else if elevation <? 0.45 then DIRT
    else if elevation <? 0.75 then FOREST
    else SNOW
  else if (biome =? "TUNDRA")%string then
    if elevation <? 0.35 then DEEP_WATER
    else if elevation <? 0.45 then DIRT
    else if elevation <? 0.80 then SNOW
    else MOUNTAIN
  else GRASS.

(** "Procedural Object Placement": the rules applied when no custom sprite
    is present; [object] keeps its value when no rule fires. *)
Definition proceduralObjectPlacement
  (object : option ObjectType)
  (biome : string) (terrain : TileType) (objectHash : float)
  : option ObjectType :=
  if (biome =? "RAINFOREST")%string && TileType_eqb terrain FOREST then
    if 0.90 <? objectHash then Some TREE_OAK
    else if 0.85 <? objectHash then Some FLOWER_RED
    else object
  else if (biome =? "GRASSLAND")%string && TileType_eqb terrain GRASS then
    if 0.98 <? objectHash then Some TREE_OAK
    else if 0.95 <? objectHash then Some HOUSE_SMALL
    else if 0.90 <? objectHash then Some FLOWER_BLUE
    else object
  else if ((biome =? "DESERT")%string || (biome =? "SAVANNA")%string)
          && TileType_eqb terrain SAND then
    if 0.98 <? objectHash then Some ROCK_SMALL else object
  else if (biome =? "TAIGA")%string && TileType_eqb terrain FOREST then
    if 0.92 <? objectHash then Some TREE_OAK else object
  else if TileType_eqb terrain MOUNTAIN || TileType_eqb terrain STONE then
    if 0.95 <? objectHash then Some ROCK_SMALL else object
  else object.

Section Generator.

Variable Math_sin : float -> float.

(** [getTile(x, y)]. *)
Definition getTile (this : WorldGenerator) (x y : Z) : WorldTile :=
  let biomeScale := 0.005 in
  let terrainScale := 0.05 in
  let biomeNoise :=
    smoothNoise Math_sin (prng this)
      (Z2number x * biomeScale) (Z2number y * biomeScale) in
  let elevation :=
    smoothNoise Math_sin (prng this)
      (Z2number x * terrainScale) (Z2number y * terrainScale) in
  let biome := "Unknown"%string in
  let terrain := WATER in
  let object := None in
  let customSprite := None in
  let customSprite :=
    if JSMap.has (coordKey x y) (placedObjects this)
    then JSMap.get (coordKey x y) (placedObjects this)
    else customSprite in
  let biome := biomeDetermination biome biomeNoise in
  let terrain := terrainDetermination terrain biome elevation in
  let object :=
    match customSprite with
    | None =>
        let objectHash :=
          noise Math_sin (prng this) (Z2number x) (Z2number y) 1 in
        proceduralObjectPlacement object biome terrain objectHash
    | Some _ => object
    end in
  {| x := x;
     y := y;
     terrain := terrain;
     biome := biome;
     object := object;
     customSprite := customSprite;
     variant :=
       Math_floor (noise Math_sin (prng this) (Z2number x) (Z2number y) 2 * 4) |}.

End Generator.

(** A host sine to run the definitions on: reduction of the argument to
    [-pi, pi] and a Taylor polynomial; NaN at NaN and at the infinities, as
    ECMAScript requires of [Math.sin]. *)
Definition sample_sin (a : float) : float :=
  if isFinite a then
    let k := Math_floor (a / 6.283185307179586 + 0.5) in
    let r := a - k * 6.283185307179586 in
    let q := r * r in
    r * (1 - q / 6 * (1 - q / 20 * (1 - q / 42 * (1 - q / 72 * (1 - q / 110 *
        (1 - q / 156 * (1 - q / 210 * (1 - q / 272 * (1 - q / 342 *
        (1 - q / 420))))))))))
  else nan.

(** *** Calls on an instance *)

(** The public methods of [WorldGenerator] as calls on an object: each call
    yields the state of the object after it and what it returns. *)
Inductive call :=
  | Call_placeObject (x y : Z) (sprite : CustomSprite)
  | Call_serializePlacedObjects
  | Call_deserializePlacedObjects (entries : list (string * CustomSprite))
  | Call_getTile (x y : Z).

Inductive reply :=
  | Void
  | Entries (entries : list (string * CustomSprite))
  | Tile (tile : WorldTile).

Section Calls.

Variable Math_sin : float -> float.

Definition exec (this : WorldGenerator) (c : call) : WorldGenerator * reply :=
  match c with
  | Call_placeObject x y sprite => (placeObject this x y sprite, Void)
  | Call_serializePlacedObjects => (this, Entries (serializePlacedObjects this))
  | Call_deserializePlacedObjects entries =>
      (deserializePlacedObjects this entries, Void)
  | Call_getTile x y => (this, Tile (getTile Math_sin this x y))
  end.

(** The object after a sequence of calls. *)
Definition after (this : WorldGenerator) (cs : list call) : WorldGenerator :=
  fold_left (fun g c => fst (exec g c)) cs this.

End Calls.

(** The generator with the same noise source and no placement: its tiles
    are the purely procedural ones. *)
Definition procedural (this : WorldGenerator) : WorldGenerator :=
  {| prng := prng this; placedObjects := JSMap.empty |}.

(* ------------------------------------------------------------------ *)
(** ** The tables of the specification *)

Module Spec.

(** The six bands of the biome noise: lower bound (included), upper bound
    (excluded), biome. *)
Definition biomeBands : list (float * float * string) :=
  [ (0, 0.15, "DESERT"%string);
    (0.15, 0.30, "SAVANNA"%string);
    (0.30, 0.45, "GRASSLAND"%string);
    (0.45, 0.65, "RAINFOREST"%string);
    (0.65, 0.85, "TAIGA"%string);
    (0.85, 1, "TUNDRA"%string) ].

Definition inBand (lo hi v : float) : Prop :=
  (lo <=? v) = true /\ (v <? hi) = true.

(** The terrain table: per biome, the ascending thresholds on the
    elevation and the terrain of the top band. *)
Definition terrainTable
  : list (string * (list (float * TileType) * TileType)) :=
  [ ("DESERT"%string,
       ([(0.30, WATER); (0.40, SAND); (0.80, SAND)], STONE));
    ("SAVANNA"%string,
       ([(0.35, WATER); (0.45, SAND)], GRASS));
    ("GRASSLAND"%string,
       ([(0.35, WATER); (0.40, SAND); (0.80, GRASS)], DIRT));
    ("RAINFOREST"%string,
       ([(0.30, DEEP_WATER); (0.40, WATER); (0.45, SAND); (0.75, FOREST)],
        GRASS));
    ("TAIGA"%string,
       ([(0.35, WATER); (0.45, DIRT); (0.75, FOREST)], SNOW));
    ("TUNDRA"%string,
       ([(0.35, DEEP_WATER); (0.45, DIRT); (0.80, SNOW)], MOUNTAIN)) ].

(** The first band the elevation falls under, else the top band. *)
Fixpoint firstBand (bands : list (float * TileType)) (top : TileType)
  (elevation : float) : TileType :=
  match bands with
  | [] => top
  | (threshold, terrain) :: rest =>
      if elevation <? threshold then terrain else firstBand rest top elevation
  end.

Fixpoint lookup {A} (k : string) (table : list (string * A)) : option A :=
  match table with
  | [] => None
  | (k', a) :: rest => if String.eqb k k' then Some a else lookup k rest
  end.

(** Terrain by the table; a biome outside the table is always grass. *)
Definition terrainOf (biome : string) (elevation : float) : TileType :=
  match lookup biome terrainTable with
  | Some (bands, top) => firstBand bands top elevation
  | None => GRASS
  end.

(** The object rules: the biomes ([None]: any biome) and terrains a rule
    applies to, and its descending thresholds on the object hash. *)
Definition objectRules
  : list (option (list string) * list TileType * list (float * ObjectType)) :=
  [ (Some ["RAINFOREST"%string], [FOREST],
       [(0.90, TREE_OAK); (0.85, FLOWER_RED)]);
    (Some ["GRASSLAND"%string], [GRASS],
       [(0.98, TREE_OAK); (0.95, HOUSE_SMALL); (0.90, FLOWER_BLUE)]);
    (Some ["DESERT"%string; "SAVANNA"%string], [SAND], [(0.98, ROCK_SMALL)]);
    (Some ["TAIGA"%string], [FOREST], [(0.92, TREE_OAK)]);
    (None, [MOUNTAIN; STONE], [(0.95, ROCK_SMALL)]) ].

(** The first threshold the hash exceeds wins. *)
Fixpoint firstAbove (thresholds : list (float * ObjectType)) (hash : float)
  : option ObjectType :=
  match thresholds with
  | [] => None
  | (threshold, obj) :: rest =>
      if threshold <? hash then Some obj else firstAbove rest hash
  end.

Definition ruleApplies
  (rule : option (list string) * list TileType * list (float * ObjectType))
  (biome : string) (terrain : TileType) : bool :=
  let '(biomes, terrains, _) := rule in
  match biomes with
  | Some names => existsb (String.eqb biome) names
  | None => true
  end
  && existsb (TileType_eqb terrain) terrains.

(** The object by the rules: the thresholds of the rule that applies to
    the biome and terrain; no object when no rule applies. *)
Definition objectOf (biome : string) (terrain : TileType) (hash : float)
  : option ObjectType :=
  match find (fun rule => ruleApplies rule biome terrain) objectRules with
  | Some (_, _, thresholds) => firstAbove thresholds hash
  | None => None
  end.

End Spec.

(** The labels of the [case]s of the [switch] on the biome. *)
Definition caseLabels : list string :=
  [ "DESERT"; "SAVANNA"; "GRASSLAND"; "RAINFOREST"; "TAIGA"; "TUNDRA" ]%string.

(** *** Reading a key back *)

(** The source never decodes a key.  To say which keys "decode to two
    integers", a key is read as two decimal integers separated by the first
    comma. *)
Fixpoint splitAtComma (s : string) : option (string * string) :=
  match s with
  | EmptyString => None
  | String c rest =>
      if Ascii.eqb c ","%char then Some (EmptyString, rest)
      else match splitAtComma rest with
           | Some (a, b) => Some (String c a, b)
           | None => None
           end
  end.

Fixpoint hasComma (s : string) : bool :=
  match s with
  | EmptyString => false
  | String c rest => Ascii.eqb c ","%char || hasComma rest
  end.

Definition decodeInteger (s : string) : option Z :=
  option_map Z.of_int (NilZero.int_of_string s).

Definition decodeKey (k : string) : option (Z * Z) :=
  match splitAtComma k with
  | Some (a, b) =>
      match decodeInteger a, decodeInteger b with
      | Some x, Some y => Some (x, y)
      | _, _ => None
      end
  | None => None
  end.

Definition wellFormedKey (k : string) : bool :=
  match decodeKey k with Some _ => true | None => false end.

Definition wellFormedEntry (e : string * CustomSprite) : bool :=
  wellFormedKey (fst e).

(** A sprite to run the definitions on. *)
Definition sampleSprite : CustomSprite :=
  {| Sprite.width := 16; Sprite.height := 16;
     Sprite.palette := [(1%Z, "#ff0000"%string)];
     Sprite.data := [0%Z; 1%Z];
     Sprite.collision := Some true;
     Sprite.portal := None;
     Sprite.id := "house1"; Sprite.name := "House"; Sprite.createdAt := 0 |}.

(** Sequences of calls of one kind. *)
Definition queries (qs : list (Z * Z)) : list call :=
  map (fun q => Call_getTile (fst q) (snd q)) qs.

Definition placements (ps : list (Z * Z * CustomSprite)) : list call :=
  map (fun p => Call_placeObject (fst (fst p)) (snd (fst p)) (snd p)) ps.

(* ------------------------------------------------------------------ *)
(** ** The rest of [worldEngine.ts] and its callers *)

(** *** The hash of the specification *)

(** A value of the int32 range. *)
Definition int32 (z : Z) : Prop := (- 2 ^ 31 <= z < 2 ^ 31)%Z.

(** The hash as the specification words it: [hash * 33 XOR charCode],
    accumulated from left to right on unbounded integers; the mask to 32
    bits is applied to the end result. *)
Fixpoint djb2 (str : string) (hash : Z) : Z :=
  match str with
  | EmptyString => hash
  | String c rest => djb2 rest (Z.lxor (hash * 33) (charCodeAt c))
  end.

(** The value of [hash] on entry to each iteration of the loop of
    [hashString], the first one included. *)
Fixpoint hashTrace (str : string) (hash : Z) : list Z :=
  match str with
  | EmptyString => []
  | String c rest =>
      hash ::
      hashTrace rest (Z.lxor (ToInt32 (hash * 33)) (ToInt32 (charCodeAt c)))
  end.

(** *** Entries given to [new Map] *)

(** The value of the last pair of [es] whose key is [k]. *)
Fixpoint lastValue {V} (k : string) (es : list (string * V)) : option V :=
  match es with
  | [] => None
  | (k', v) :: rest =>
      match lastValue k rest with
      | Some v' => Some v'
      | None => if String.eqb k k' then Some v else None
      end
  end.

(** *** [StorageService]: the sprite library *)

Module Storage.

(** What [localStorage] holds under a key, as [getItem] and [JSON.parse]
    see it: nothing ([getItem] returns [null]) or the empty string; a text
    [JSON.parse] throws on; or the text [JSON.stringify] wrote for a value
    (every field of a sprite is a JSON value, so parsing that text gives
    the value back). *)
Inductive item (A : Type) :=
  | Absent
  | Unreadable
  | Json (value : A).

Arguments Absent {A}.
Arguments Unreadable {A}.
Arguments Json {A} value.

(** The item under [SPRITES_KEY]. *)
Definition store := item (list CustomSprite).

(** [arr.findIndex(p)]; [None] is -1. *)
Fixpoint findIndex {A} (p : A -> bool) (arr : list A) : option nat :=
  match arr with
  | [] => None
  | a :: rest =>
      if p a then Some O
      else match findIndex p rest with
           | Some i => Some (S i)
           | None => None
           end
  end.

(** [arr[index] = v] for an index [findIndex] returned. *)
Fixpoint assign {A} (arr : list A) (index : nat) (v : A) : list A :=
  match arr, index with
  | [], _ => []
  | _ :: rest, O => v :: rest
  | a :: rest, S i => a :: assign rest i v
  end.

(** [getSprites()]: the parsed library; the empty array when nothing is
    stored or when parsing throws. *)
Definition getSprites (st : store) : list CustomSprite :=
  match st with
  | Json sprites => sprites
  | Absent | Unreadable => []
  end.

(** [saveSprite(sprite)]; returns the store after [setItem], which is taken
    to accept the text. *)
Definition saveSprite (st : store) (sprite : CustomSprite) : store :=
  let existing := getSprites st in
  let index :=
    findIndex (fun s => String.eqb (Sprite.id s) (Sprite.id sprite)) existing in
  match index with
  | Some index => Json (assign existing index sprite)
  | None => Json (existing ++ [sprite])
  end.

(** [deleteSprite(id)]. *)
Definition deleteSprite (st : store) (id : string) : store :=
  let existing := getSprites st in
  let filtered :=
    filter (fun s => negb (String.eqb (Sprite.id s) id)) existing in
  Json filtered.

(** The ids of the library, in order. *)
Definition ids (st : store) : list string := map Sprite.id (getSprites st).

(** The calls that write the library, and a sequence of them. *)
Inductive request :=
  | SaveSprite (sprite : CustomSprite)
  | DeleteSprite (id : string).

Definition handle (st : store) (r : request) : store :=
  match r with
  | SaveSprite sprite => saveSprite st sprite
  | DeleteSprite id => deleteSprite st id
  end.

Definition run (st : store) (rs : list request) : store :=
  fold_left handle rs st.

End Storage.

(** *** [WorldRenderer]: the inventory *)

Module Inventory.

(** [InventoryItem]; the counts are whole numbers, far below 2^53. *)
Record InventoryItem := { id : string; count : Z }.

(** An element of the inventory array: [null], an item, or nothing at all
    (read as [undefined]) where an assignment beyond the end left a gap. *)
Inductive slot :=
  | Null
  | Undefined
  | Item (item : InventoryItem).

Definition MAX_STACK : Z := 32.

(** [arr[i]]. *)
Definition read (arr : list slot) (i : nat) : slot := nth i arr Undefined.

(** [arr[i] = v]: beyond the end the array grows and the gap is left
    without elements. *)
Fixpoint write (arr : list slot) (i : nat) (v : slot) : list slot :=
  match arr, i with
  | [], O => [v]
  | [], S j => Undefined :: write [] j v
  | _ :: rest, O => v :: rest
  | a :: rest, S j => a :: write rest j v
  end.

(** The updater [handleDropItem(index)] passes to [setInventory]. *)
Definition handleDropItem (index : nat) (prev : list slot) : list slot :=
  let newInv := prev in
  match read newInv index with
  | Item item => write newInv index Null
  | _ => newInv
  end.

(** The updater [handleMoveItem(fromIndex, toIndex)] passes to
    [setInventory]. *)
Definition handleMoveItem (fromIndex toIndex : nat) (prev : list slot)
  : list slot :=
  let newInv := prev in
  let source := read newInv fromIndex in
  let target := read newInv toIndex in
  match source with
  | Item source =>
      if Nat.eqb fromIndex toIndex then prev
      else
        match target with
        | Item target =>
            if String.eqb (id source) (id target) then
              let total := (count source + count target)%Z in
              if (total <=? MAX_STACK)%Z then
                let newInv :=
                  write newInv toIndex
                    (Item {| id := id target; count := total |}) in
                write newInv fromIndex Null
              else
                let newInv :=
                  write newInv toIndex
                    (Item {| id := id target; count := MAX_STACK |}) in
                write newInv fromIndex
                  (Item {| id := id source;
                           count := (total - MAX_STACK)%Z |})
            else
              let newInv := write newInv toIndex (Item source) in
              write newInv fromIndex (Item target)
        | _ =>
            let newInv := write newInv toIndex (Item source) in
            write newInv fromIndex Null
        end
  | _ => prev
  end.

(** [newInv.findIndex(p)]; [None] is -1. *)
Fixpoint findIndex (p : slot -> bool) (arr : list slot) : option nat :=
  match arr with
  | [] => None
  | a :: rest =>
      if p a then Some O
      else match findIndex p rest with
           | Some i => Some (S i)
           | None => None
           end
  end.

(** The updater [handleGather] passes to [setInventory] once it has drawn
    [foundItemName]. *)
Definition handleGather (foundItemName : string) (prev : list slot)
  : list slot :=
  let newInv := prev in
  let existingIdx :=
    findIndex
      (fun slot =>
         match slot with
         | Item slot =>
             String.eqb (id slot) foundItemName
             && (count slot <? MAX_STACK)%Z
         | _ => false
         end) newInv in
  match existingIdx with
  | Some existingIdx =>
      match read newInv existingIdx with
      | Item item =>
          write newInv existingIdx
            (Item {| id := id item; count := (count item + 1)%Z |})
      | _ => newInv
      end
  | None =>
      let emptyIdx :=
        findIndex (fun slot => match slot with Null => true | _ => false end)
          newInv in
      match emptyIdx with
      | Some emptyIdx =>
          write newInv emptyIdx (Item {| id := foundItemName; count := 1 |})
      | None => prev
      end
  end.

(** The number of units of the item [name] in the inventory. *)
Fixpoint units (name : string) (arr : list slot) : Z :=
  match arr with
  | [] => 0
  | Item item :: rest =>
      ((if String.eqb (id item) name then count item else 0)
       + units name rest)%Z
  | _ :: rest => units name rest
  end.

(** The slots the two searches of [handleGather] look for: a stack of the
    item below [MAX_STACK], and a [null] slot. *)
Definition stackable (name : string) (s : slot) : bool :=
  match s with
  | Item item => String.eqb (id item) name && (count item <? MAX_STACK)%Z
  | _ => false
  end.

Definition free (s : slot) : bool :=
  match s with Null => true | _ => false end.

(** Every stack holds between 1 and [MAX_STACK] units. *)
Definition wellStacked (arr : list slot) : Prop :=
  forall item, In (Item item) arr -> (1 <= count item <= MAX_STACK)%Z.




(** An inventory to run the updates on. *)
Definition sample : list slot :=
  [Item {| id := "wood"; count := 20 |};
   Item {| id := "wood"; count := 20 |};
   Null].

End Inventory.

(** *** [WorldRenderer]: collision and portals *)

(** What a frame does to the player when a movement key is down:
    [onTeleport(p.targetSeed, p.targetX, p.targetY)] and no move; the
    position becomes [(nextX, nextY)]; or the position stays. *)
Inductive movement :=
  | Teleport (p : Sprite.PortalConfig)
  | Move (nextX nextY : float)
  | Stop.

Section CollisionAndPortal.

Variable Math_sin : float -> float.

(** [OBJECT_ART[object]] is defined and its [collision] is truthy; the
    table is a constant of [../constants]. *)
Variable OBJECT_ART_collision : ObjectType -> bool.

(** "Collision & Portal Logic" for the tile [(targetTileX, targetTileY)]
    the player moves into, [nextX] and [nextY] rounded. *)
Definition collisionAndPortal (world : WorldGenerator)
  (targetTileX targetTileY : Z) (nextX nextY : float) : movement :=
  let targetTile := getTile Math_sin world targetTileX targetTileY in
  let hasCollision := false in
  let hasCollision :=
    match object targetTile with
    | None | Some NONE => hasCollision
    | Some object =>
        if OBJECT_ART_collision object then true else hasCollision
    end in
  let finish (hasCollision : bool) :=
    if negb hasCollision then Move nextX nextY else Stop in
  match customSprite targetTile with
  | Some customSprite =>
      let hasCollision :=
        match Sprite.collision customSprite with
        | Some true => true
        | _ => hasCollision
        end in
      match Sprite.portal customSprite with
      | Some p => Teleport p
      | None => finish hasCollision
      end
  | None => finish hasCollision
  end.

End CollisionAndPortal.

(** *** [WorldRenderer]: the explored rectangle *)

Record ExplorationBounds := {
  minX : float;
  maxX : float;
  minY : float;
  maxY : float
}.

(** "Update Exploration Bounds": the four assignments of the game loop, for
    the position [(cx, cy)]. *)
Definition updateExplorationBounds (bounds : ExplorationBounds) (cx cy : float)
  : ExplorationBounds :=
  let bounds :=
    if cx <? minX bounds
    then {| minX := cx; maxX := maxX bounds;
            minY := minY bounds; maxY := maxY bounds |}
    else bounds in
  let bounds :=
    if maxX bounds <? cx
    then {| minX := minX bounds; maxX := cx;
            minY := minY bounds; maxY := maxY bounds |}
    else bounds in
  let bounds :=
    if cy <? minY bounds
    then {| minX := minX bounds; maxX := maxX bounds;
            minY := cy; maxY := maxY bounds |}
    else bounds in
  let bounds :=
    if maxY bounds <? cy
    then {| minX := minX bounds; maxX := maxX bounds;
            minY := minY bounds; maxY := cy |}
    else bounds in
  bounds.

(** The rectangle after the positions of [path], one frame after the
    other. *)
Definition explore (bounds : ExplorationBounds) (path : list (float * float))
  : ExplorationBounds :=
  fold_left (fun bounds p => updateExplorationBounds bounds (fst p) (snd p))
    path bounds.

(** No side of the rectangle is NaN. *)
Definition orderedBounds (bounds : ExplorationBounds) : Prop :=
  ordered (minX bounds) /\ ordered (maxX bounds) /\
  ordered (minY bounds) /\ ordered (maxY bounds).

(** The position lies in the rectangle. *)
Definition inBounds (bounds : ExplorationBounds) (cx cy : float) : Prop :=
  (minX bounds <=? cx) = true /\ (cx <=? maxX bounds) = true /\
  (minY bounds <=? cy) = true /\ (cy <=? maxY bounds) = true.

(** The first rectangle lies in the second. *)
Definition withinBounds (inner outer : ExplorationBounds) : Prop :=
  (minX outer <=? minX inner) = true /\ (maxX inner <=? maxX outer) = true /\
  (minY outer <=? minY inner) = true /\ (maxY inner <=? maxY outer) = true.

(* ================================================================== *)
(** * Properties *)

(** ** The order of binary64 numbers *)

Module FloatOrder.

Ltac cmp_cases :=
  repeat match goal with
  | H : context [Pos.compare_cont Eq ?a ?b] |- _ =>
      change (Pos.compare_cont Eq a b) with (Pos.compare a b) in H
  | |- context [Pos.compare_cont Eq ?a ?b] =>
      change (Pos.compare_cont Eq a b) with (Pos.compare a b)
  end;
  repeat match goal with
  | H : context [Z.compare ?a ?b] |- _ => destruct (Z.compare_spec a b)
  | |- context [Z.compare ?a ?b] => destruct (Z.compare_spec a b)
  | H : context [Pos.compare ?a ?b] |- _ => destruct (Pos.compare_spec a b)
  | |- context [Pos.compare ?a ?b] => destruct (Pos.compare_spec a b)
  end;
  simpl in *; try discriminate; try reflexivity; try lia.

Ltac sf_cases :=
  unfold SFleb, SFltb; intros;
  repeat match goal with
  | a : spec_float |- _ => destruct a as [[|]|[|]| |[|] ? ?]
  end;
  simpl in *; try discriminate; try reflexivity; try congruence; cmp_cases.

Lemma SFleb_trans a b c :
  SFleb a b = true -> SFleb b c = true -> SFleb a c = true.
Proof. sf_cases. Qed.

Lemma SFltb_leb_trans a b c :
  SFltb a b = true -> SFleb b c = true -> SFltb a c = true.
Proof. sf_cases. Qed.

Lemma SFleb_ltb_trans a b c :
  SFleb a b = true -> SFltb b c = true -> SFltb a c = true.
Proof. sf_cases. Qed.

Lemma SFltb_negb_leb a b :
  a <> S754_nan -> b <> S754_nan -> SFltb a b = negb (SFleb b a).
Proof. sf_cases. Qed.

Lemma SFleb_not_nan a b : SFleb a b = true -> a <> S754_nan /\ b <> S754_nan.
Proof. sf_cases; split; discriminate. Qed.

Lemma SFltb_not_nan a b : SFltb a b = true -> a <> S754_nan /\ b <> S754_nan.
Proof. sf_cases; split; discriminate. Qed.

Lemma leb_trans a b c : (a <=? b) = true -> (b <=? c) = true -> (a <=? c) = true.
Proof. rewrite !leb_spec. apply SFleb_trans. Qed.

Lemma ltb_leb_trans a b c : (a <? b) = true -> (b <=? c) = true -> (a <? c) = true.
Proof. rewrite !leb_spec, !ltb_spec. apply SFltb_leb_trans. Qed.

Lemma leb_ltb_trans a b c : (a <=? b) = true -> (b <? c) = true -> (a <? c) = true.
Proof. rewrite !leb_spec, !ltb_spec. apply SFleb_ltb_trans. Qed.

Lemma ltb_negb_leb a b : ordered a -> ordered b -> (a <? b) = negb (b <=? a).
Proof. rewrite !leb_spec, !ltb_spec. apply SFltb_negb_leb. Qed.

Lemma leb_ordered a b : (a <=? b) = true -> ordered a /\ ordered b.
Proof. rewrite leb_spec. apply SFleb_not_nan. Qed.

Lemma ltb_ordered a b : (a <? b) = true -> ordered a /\ ordered b.
Proof. rewrite ltb_spec. apply SFltb_not_nan. Qed.

Lemma ltb_irrefl a : (a <? a) = false.
Proof.
  rewrite ltb_spec. destruct (Prim2SF a) as [[|]|[|]| |[|] m e];
    unfold SFltb; simpl; try reflexivity;
    rewrite Z.compare_refl;
    change (Pos.compare_cont Eq m m) with (Pos.compare m m);
    rewrite Pos.compare_refl; reflexivity.
Qed.

End FloatOrder.

(** ** Rounding: the fractional part of a binary64 number *)

Module FloatFacts.

Local Open Scope Z_scope.

Lemma digits2_size p : digits2_pos p = Pos.size p.
Proof. induction p; simpl; congruence. Qed.

(** The number of binary digits of a positive number. *)
Lemma digits2_bounds p :
  2 ^ (Zpos (digits2_pos p) - 1) <= Zpos p < 2 ^ Zpos (digits2_pos p).
Proof.
  rewrite digits2_size. split.
  - pose proof (Pos.size_le p) as H.
    assert (H' : 2 ^ Zpos (Pos.size p) <= 2 * Zpos p).
    { rewrite <- Pos2Z.inj_pow. change (2 * Zpos p) with (Zpos p~0). exact H. }
    replace (Zpos (Pos.size p)) with (Z.succ (Zpos (Pos.size p) - 1)) in H' by lia.
    rewrite Z.pow_succ_r in H' by lia. lia.
  - pose proof (Pos.size_gt p) as H.
    rewrite <- Pos2Z.inj_pow. exact H.
Qed.

Lemma digits2_upper p d : Zpos p < 2 ^ d -> Zpos (digits2_pos p) <= d.
Proof.
  intros H. destruct (Z.le_gt_cases (Zpos (digits2_pos p)) d) as [|Hgt]; auto.
  exfalso. pose proof (digits2_bounds p) as [Hlo _].
  assert (0 <= d).
  { destruct (Z.le_gt_cases 0 d); auto. rewrite Z.pow_neg_r in H by lia. lia. }
  assert (2 ^ d <= 2 ^ (Zpos (digits2_pos p) - 1))
    by (apply Z.pow_le_mono_r; lia).
  lia.
Qed.

Lemma iter_xO m p : Zpos (Pos.iter xO m p) = Zpos m * 2 ^ Zpos p.
Proof.
  induction p using Pos.peano_ind.
  - simpl. lia.
  - rewrite Pos.iter_succ, Pos2Z.inj_succ, Z.pow_succ_r by lia.
    rewrite Pos2Z.inj_xO, IHp. lia.
Qed.

Lemma digits2_iter_xO m p :
  Zpos (digits2_pos (Pos.iter xO m p)) = Zpos (digits2_pos m) + Zpos p.
Proof.
  induction p using Pos.peano_ind.
  - simpl. lia.
  - rewrite Pos.iter_succ. simpl. rewrite Pos2Z.inj_succ, IHp. lia.
Qed.

(** Shifting right keeps the integer quotient. *)
Lemma shr_1_m mrs : 0 <= shr_m mrs -> shr_m (shr_1 mrs) = shr_m mrs / 2.
Proof.
  destruct mrs as [m r s]. simpl. intros H.
  destruct m as [|[p|p|]|p]; cbn [shr_m]; try lia; try reflexivity.
  - apply Z.div_unique with 1; lia.
  - apply Z.div_unique with 0; lia.
Qed.

Lemma iter_shr_1_m p : forall mrs,
  0 <= shr_m mrs ->
  shr_m (SpecFloat.iter_pos shr_1 p mrs) = shr_m mrs / 2 ^ Zpos p.
Proof.
  induction p as [p IH|p IH|]; intros mrs H; simpl SpecFloat.iter_pos.
  - assert (H1 : 0 <= shr_m (shr_1 mrs))
      by (rewrite shr_1_m by assumption; apply Z.div_pos; lia).
    assert (H2 : 0 <= shr_m (SpecFloat.iter_pos shr_1 p (shr_1 mrs)))
      by (rewrite IH by assumption; apply Z.div_pos; lia).
    rewrite IH, IH, shr_1_m by assumption.
    rewrite !Z.div_div by lia. f_equal.
    replace (Zpos p~1) with (1 + Zpos p + Zpos p) by lia.
    rewrite !Z.pow_add_r by lia. lia.
  - assert (H2 : 0 <= shr_m (SpecFloat.iter_pos shr_1 p mrs))
      by (rewrite IH by assumption; apply Z.div_pos; lia).
    rewrite IH, IH by assumption.
    rewrite !Z.div_div by lia. f_equal.
    replace (Zpos p~0) with (Zpos p + Zpos p) by lia.
    rewrite !Z.pow_add_r by lia. lia.
  - rewrite shr_1_m by assumption. reflexivity.
Qed.

Lemma round_nearest_even_bounds m l :
  m <= round_nearest_even m l <= m + 1.
Proof.
  unfold round_nearest_even.
  destruct l as [|[| |]]; try destruct (Z.even m); lia.
Qed.

Lemma fexp_eq e : fexp prec emax e = Z.max (e - 53) (-1074).
Proof. reflexivity. Qed.

Lemma shr_m_of_loc m l : shr_m (shr_record_of_loc m l) = m.
Proof. destruct l as [|[| |]]; reflexivity. Qed.

(** The second normalisation step of [binary_round_aux]. *)
Lemma renormalize_unit m1 fe :
  0 <= m1 -> -1074 <= fe <= -53 -> m1 <= 2 ^ (- fe) ->
  inUnitSF
    (let '(mrs, e) := shr_fexp prec emax m1 fe loc_Exact in
     match shr_m mrs with
     | Z0 => S754_zero false
     | Zpos m =>
         if e <=? emax - prec then S754_finite false m e
         else S754_infinity false
     | Zneg _ => S754_nan
     end).
Proof.
  intros Hm1 [Hfe0 Hfe] Hle.
  unfold shr_fexp, shr.
  destruct m1 as [|p1|p1]; [| |lia].
  - simpl Zdigits2.
    destruct (fexp prec emax (0 + fe) - fe) as [|a|a];
      cbn [shr_record_of_loc shr_m]; simpl; auto.
    rewrite iter_shr_1_m by (simpl; lia). simpl. exact I.
  - simpl Zdigits2. rewrite fexp_eq.
    pose proof (digits2_bounds p1) as [Hlo Hhi].
    set (d1 := Zpos (digits2_pos p1)) in *.
    assert (Hd1 : d1 - 1 <= - fe).
    { destruct (Z.le_gt_cases (d1 - 1) (- fe)) as [|Hgt]; auto. exfalso.
      assert (2 ^ (- fe + 1) <= 2 ^ (d1 - 1)) by (apply Z.pow_le_mono_r; lia).
      rewrite Z.pow_add_r in H by lia. change (2 ^ 1) with 2 in H.
      assert (0 < 2 ^ (- fe)) by (apply Z.pow_pos_nonneg; lia). lia. }
    destruct (Z.max (d1 + fe - 53) (-1074) - fe) as [|a|a] eqn:Ha;
      cbn [shr_record_of_loc shr_m].
    + replace (fe <=? emax - prec) with true
        by (symmetry; apply Z.leb_le; unfold emax, prec; lia).
      cbn [inUnitSF]. left. lia.
    + rewrite iter_shr_1_m by (simpl; lia). cbn [shr_m].
      assert (Hf2 : fe + Zpos a = d1 + fe - 53) by lia.
      assert (Hq : 0 <= Zpos p1 / 2 ^ Zpos a) by (apply Z.div_pos; lia).
      destruct (Zpos p1 / 2 ^ Zpos a) as [|m2|m2] eqn:Hm2; [exact I | | lia].
      replace (fe + Zpos a <=? emax - prec) with true
        by (symmetry; apply Z.leb_le; unfold emax, prec; lia).
      cbn [inUnitSF].
      destruct (Z.eq_dec (fe + Zpos a) (-52)) as [E|E]; [right | left; lia].
      split; [exact E |].
      assert (Ha52 : Zpos a = - 52 - fe) by lia.
      rewrite <- Hm2.
      apply Z.div_le_upper_bound; [lia |].
      rewrite Ha52, <- Z.pow_add_r by lia.
      replace (-52 - fe + 52) with (- fe) by lia. exact Hle.
    + replace (fe <=? emax - prec) with true
        by (symmetry; apply Z.leb_le; unfold emax, prec; lia).
      cbn [inUnitSF]. left. lia.
Qed.

Lemma fexp_small d : d <= 0 -> -1074 <= fexp prec emax d <= -53.
Proof. rewrite fexp_eq. lia. Qed.

Lemma binary_round_aux_unit mz ez :
  ez <= fexp prec emax (Zpos (digits2_pos mz) + ez) ->
  Zpos mz < 2 ^ (- ez) -> ez < 0 ->
  inUnitSF (binary_round_aux prec emax false (Zpos mz) ez loc_Exact).
Proof.
  intros Hal Hlt Hez.
  assert (Hd : Zpos (digits2_pos mz) + ez <= 0)
    by (pose proof (digits2_upper mz (- ez) Hlt); lia).
  pose proof (fexp_small _ Hd) as Hfe.
  unfold binary_round_aux, shr_fexp at 1, shr. cbn [Zdigits2].
  set (fe := fexp prec emax (Zpos (digits2_pos mz) + ez)) in *.
  destruct (fe - ez) as [|a|a] eqn:Ha; [| | lia].
  - cbn [shr_record_of_loc shr_m loc_of_shr_record round_nearest_even].
    replace ez with fe in * by lia.
    apply renormalize_unit; lia.
  - set (mrs := SpecFloat.iter_pos shr_1 a (shr_record_of_loc (Zpos mz) loc_Exact)).
    assert (Hm0 : shr_m mrs = Zpos mz / 2 ^ Zpos a)
      by (unfold mrs; rewrite iter_shr_1_m; simpl; lia).
    pose proof (round_nearest_even_bounds (shr_m mrs) (loc_of_shr_record mrs)) as Hr.
    assert (H0 : 0 <= shr_m mrs) by (rewrite Hm0; apply Z.div_pos; lia).
    assert (H1 : shr_m mrs < 2 ^ (- fe)).
    { rewrite Hm0. apply Z.div_lt_upper_bound; [lia |].
      rewrite <- Z.pow_add_r by lia.
      replace (Zpos a + - fe) with (- ez) by lia. exact Hlt. }
    replace (ez + Zpos a) with fe by lia.
    apply renormalize_unit; lia.
Qed.

Lemma binary_round_unit D e :
  e < 0 -> Zpos D < 2 ^ (- e) ->
  inUnitSF (binary_round prec emax false D e).
Proof.
  intros He Hlt.
  assert (Hd : Zpos (digits2_pos D) + e <= 0)
    by (pose proof (digits2_upper D (- e) Hlt); lia).
  pose proof (fexp_small _ Hd) as Hfe.
  unfold binary_round, shl_align.
  set (fe := fexp prec emax (Zpos (digits2_pos D) + e)) in *.
  destruct (fe - e) as [|a|a] eqn:Ha.
  - apply binary_round_aux_unit; try lia; fold fe; lia.
  - apply binary_round_aux_unit; try lia; fold fe; lia.
  - assert (Hdig : Zpos (digits2_pos (Pos.iter xO D a)) + fe = Zpos (digits2_pos D) + e)
      by (rewrite digits2_iter_xO; lia).
    apply binary_round_aux_unit; try lia.
    + rewrite Hdig. fold fe. lia.
    + rewrite iter_xO.
      replace (- fe) with (- e + Zpos a) by lia.
      rewrite Z.pow_add_r by lia.
      apply Z.mul_lt_mono_pos_r; [apply Z.pow_pos_nonneg; lia | exact Hlt].
Qed.

Lemma binary_normalize_unit D e :
  e < 0 -> 0 <= D < 2 ^ (- e) ->
  inUnitSF (binary_normalize prec emax D e false).
Proof.
  intros He [H0 Hlt]. destruct D as [|p|p]; [exact I | | lia].
  now apply binary_round_unit.
Qed.

Lemma shl_align_value m e ez :
  ez <= e -> Zpos (fst (shl_align m e ez)) = Zpos m * 2 ^ (e - ez).
Proof.
  intros H. unfold shl_align.
  destruct (ez - e) as [|a|a] eqn:Ha; cbn [fst].
  - replace (e - ez) with 0 by lia. simpl. lia.
  - lia.
  - rewrite iter_xO. f_equal. f_equal. lia.
Qed.

Lemma cond_Zopp_mul s a b : cond_Zopp s a * b = cond_Zopp s (a * b).
Proof. destruct s; simpl; lia. Qed.

Lemma SFsub_finite s m e s' m' e' :
  SFsub prec emax (S754_finite s m e) (S754_finite s' m' e') =
  binary_normalize prec emax
    (cond_Zopp s (Zpos m) * 2 ^ (e - Z.min e e') -
     cond_Zopp s' (Zpos m') * 2 ^ (e' - Z.min e e'))
    (Z.min e e') false.
Proof.
  cbn [SFsub]. cbv zeta.
  rewrite !shl_align_value by lia.
  now rewrite !cond_Zopp_mul.
Qed.

(** A mantissa in canonical position is left as it is. *)
Lemma binary_round_aux_canonical s mz ez :
  fexp prec emax (Zpos (digits2_pos mz) + ez) = ez -> ez <= emax - prec ->
  binary_round_aux prec emax s (Zpos mz) ez loc_Exact = S754_finite s mz ez.
Proof.
  intros Hc Hb. unfold binary_round_aux, shr_fexp, shr. cbn [Zdigits2].
  rewrite Hc, Z.sub_diag.
  cbn [shr_record_of_loc shr_m loc_of_shr_record round_nearest_even Zdigits2].
  rewrite Hc, Z.sub_diag. cbn [shr_m].
  apply Z.leb_le in Hb. now rewrite Hb.
Qed.

(** The double of a nonzero integer below 2^53 in magnitude. *)
Lemma binary_normalize_int q :
  q <> 0 -> Z.abs q < 2 ^ 53 ->
  exists mq eq,
    binary_normalize prec emax q 0 false = S754_finite (q <? 0) mq eq /\
    eq <= 0 /\
    cond_Zopp (q <? 0) (Zpos mq) = q * 2 ^ (- eq) /\
    valid_binary (S754_finite (q <? 0) mq eq) = true /\
    Z.abs q < 2 ^ (eq + 53).
Proof.
  intros Hq Hlt.
  assert (Hpos : forall s p, Zpos p < 2 ^ 53 ->
            exists mq eq,
              binary_round prec emax s p 0 = S754_finite s mq eq /\
              eq <= 0 /\ Zpos mq = Zpos p * 2 ^ (- eq) /\
              valid_binary (S754_finite s mq eq) = true /\
              Zpos p < 2 ^ (eq + 53)).
  { intros s p Hp.
    pose proof (digits2_upper p 53 Hp) as Hd.
    pose proof (digits2_bounds p) as [_ Hhi].
    assert (Hd1 : 1 <= Zpos (digits2_pos p)) by lia.
    unfold binary_round, shl_align.
    rewrite Z.add_0_r, fexp_eq.
    replace (Z.max (Zpos (digits2_pos p) - 53) (-1074))
      with (Zpos (digits2_pos p) - 53) by lia.
    destruct (Zpos (digits2_pos p) - 53 - 0) as [|a|a] eqn:Ha; [| lia |].
    - exists p, 0. rewrite binary_round_aux_canonical.
      + repeat split; try lia;
          try (replace (0 + 53) with (Zpos (digits2_pos p)) by lia; exact Hhi).
        unfold valid_binary, bounded, canonical_mantissa. rewrite fexp_eq.
        apply andb_true_iff. split; [apply Z.eqb_eq; lia | reflexivity].
      + rewrite fexp_eq. lia.
      + unfold emax, prec. lia.
    - exists (Pos.iter xO p a), (Zpos (digits2_pos p) - 53).
      assert (Hdig : Zpos (digits2_pos (Pos.iter xO p a)) = 53)
        by (rewrite digits2_iter_xO; lia).
      rewrite binary_round_aux_canonical.
      + repeat split; try lia;
          try (replace (Zpos (digits2_pos p) - 53 + 53)
                 with (Zpos (digits2_pos p)) by lia; exact Hhi).
        * rewrite iter_xO. f_equal. f_equal. lia.
        * unfold valid_binary, bounded, canonical_mantissa. rewrite Hdig, fexp_eq.
          apply andb_true_iff.
          split; [apply Z.eqb_eq; lia | apply Z.leb_le; unfold emax, prec; lia].
      + rewrite Hdig, fexp_eq. lia.
      + unfold emax, prec. lia. }
  destruct q as [|p|p]; [lia | |]; cbn [binary_normalize].
  - destruct (Hpos false p) as (mq & eq & H1 & H2 & H3 & H4 & H5); [exact Hlt |].
    exists mq, eq. repeat split; auto.
  - destruct (Hpos true p) as (mq & eq & H1 & H2 & H3 & H4 & H5); [exact Hlt |].
    exists mq, eq. repeat split; auto.
    change (Z.neg p <? 0) with true. cbn [cond_Zopp]. rewrite H3. lia.
Qed.

(** *** The same, strictly below 1 *)

Lemma renormalize_below m1 fe :
  0 <= m1 < 2 ^ (- fe) -> -1074 <= fe <= -53 ->
  belowOneSF
    (let '(mrs, e) := shr_fexp prec emax m1 fe loc_Exact in
     match shr_m mrs with
     | Z0 => S754_zero false
     | Zpos m =>
         if e <=? emax - prec then S754_finite false m e
         else S754_infinity false
     | Zneg _ => S754_nan
     end).
Proof.
  intros [Hm1 Hlt] [Hfe0 Hfe].
  unfold shr_fexp, shr.
  destruct m1 as [|p1|p1]; [| |lia].
  - simpl Zdigits2.
    destruct (fexp prec emax (0 + fe) - fe) as [|a|a];
      cbn [shr_record_of_loc shr_m]; simpl; auto.
    rewrite iter_shr_1_m by (simpl; lia). simpl. exact I.
  - simpl Zdigits2. rewrite fexp_eq.
    pose proof (digits2_upper p1 (- fe) Hlt) as Hd1.
    set (d1 := Zpos (digits2_pos p1)) in *.
    destruct (Z.max (d1 + fe - 53) (-1074) - fe) as [|a|a] eqn:Ha;
      cbn [shr_record_of_loc shr_m].
    + replace (fe <=? emax - prec) with true
        by (symmetry; apply Z.leb_le; unfold emax, prec; lia).
      cbn [belowOneSF]. lia.
    + rewrite iter_shr_1_m by (simpl; lia). cbn [shr_m].
      assert (Hq : 0 <= Zpos p1 / 2 ^ Zpos a) by (apply Z.div_pos; lia).
      destruct (Zpos p1 / 2 ^ Zpos a) as [|m2|m2] eqn:Hm2; [exact I | | lia].
      replace (fe + Zpos a <=? emax - prec) with true
        by (symmetry; apply Z.leb_le; unfold emax, prec; lia).
      cbn [belowOneSF]. lia.
    + replace (fe <=? emax - prec) with true
        by (symmetry; apply Z.leb_le; unfold emax, prec; lia).
      cbn [belowOneSF]. lia.
Qed.

Lemma binary_round_aux_below mz ez :
  ez <= fexp prec emax (Zpos (digits2_pos mz) + ez) ->
  Zpos mz < 2 ^ (- ez) -> ez < 0 ->
  (ez < fexp prec emax (Zpos (digits2_pos mz) + ez) ->
   Zpos mz + 2 ^ (fexp prec emax (Zpos (digits2_pos mz) + ez) - ez) < 2 ^ (- ez)) ->
  belowOneSF (binary_round_aux prec emax false (Zpos mz) ez loc_Exact).
Proof.
  intros Hal Hlt Hez Hround.
  assert (Hd : Zpos (digits2_pos mz) + ez <= 0)
    by (pose proof (digits2_upper mz (- ez) Hlt); lia).
  pose proof (fexp_small _ Hd) as Hfe.
  unfold binary_round_aux, shr_fexp at 1, shr. cbn [Zdigits2].
  set (fe := fexp prec emax (Zpos (digits2_pos mz) + ez)) in *.
  destruct (fe - ez) as [|a|a] eqn:Ha; [| | lia].
  - cbn [shr_record_of_loc shr_m loc_of_shr_record round_nearest_even].
    replace ez with fe in * by lia.
    apply renormalize_below; lia.
  - set (mrs := SpecFloat.iter_pos shr_1 a (shr_record_of_loc (Zpos mz) loc_Exact)).
    assert (Hm0 : shr_m mrs = Zpos mz / 2 ^ Zpos a)
      by (unfold mrs; rewrite iter_shr_1_m; simpl; lia).
    pose proof (round_nearest_even_bounds (shr_m mrs) (loc_of_shr_record mrs)) as Hr.
    assert (H0 : 0 <= shr_m mrs) by (rewrite Hm0; apply Z.div_pos; lia).
    assert (Hsplit : 2 ^ (- ez) = 2 ^ Zpos a * 2 ^ (- fe)).
    { rewrite <- Z.pow_add_r by lia. f_equal. lia. }
    assert (H1 : shr_m mrs < 2 ^ (- fe) - 1).
    { rewrite Hm0. apply Z.div_lt_upper_bound; [lia |].
      specialize (Hround ltac:(lia)).
      replace (fe - ez) with (Zpos a) in Hround by lia.
      rewrite Hsplit in Hround. lia. }
    replace (ez + Zpos a) with fe by lia.
    apply renormalize_below; lia.
Qed.

Lemma binary_round_below D e :
  e < 0 -> Zpos D < 2 ^ (- e) ->
  (e < fexp prec emax (Zpos (digits2_pos D) + e) ->
   Zpos D + 2 ^ (fexp prec emax (Zpos (digits2_pos D) + e) - e) < 2 ^ (- e)) ->
  belowOneSF (binary_round prec emax false D e).
Proof.
  intros He Hlt Hround.
  assert (Hd : Zpos (digits2_pos D) + e <= 0)
    by (pose proof (digits2_upper D (- e) Hlt); lia).
  pose proof (fexp_small _ Hd) as Hfe.
  unfold binary_round, shl_align.
  set (fe := fexp prec emax (Zpos (digits2_pos D) + e)) in *.
  destruct (fe - e) as [|a|a] eqn:Ha.
  - apply binary_round_aux_below; fold fe; lia.
  - apply binary_round_aux_below; fold fe; try lia.
    rewrite Ha. exact Hround.
  - assert (Hdig : Zpos (digits2_pos (Pos.iter xO D a)) + fe = Zpos (digits2_pos D) + e)
      by (rewrite digits2_iter_xO; lia).
    apply binary_round_aux_below; rewrite ?Hdig; fold fe; try lia.
    rewrite iter_xO.
    replace (- fe) with (- e + Zpos a) by lia.
    rewrite Z.pow_add_r by lia.
    apply Z.mul_lt_mono_pos_r; [apply Z.pow_pos_nonneg; lia | exact Hlt].
Qed.

Lemma binary_normalize_below D e :
  e < 0 -> 0 <= D < 2 ^ (- e) ->
  (forall p, D = Zpos p ->
     e < fexp prec emax (Zpos (digits2_pos p) + e) ->
     D + 2 ^ (fexp prec emax (Zpos (digits2_pos p) + e) - e) < 2 ^ (- e)) ->
  belowOneSF (binary_normalize prec emax D e false).
Proof.
  intros He [H0 Hlt] Hround. destruct D as [|p|p]; [exact I | | lia].
  apply binary_round_below; auto.
Qed.

Lemma valid_exponent s m e :
  valid_binary (S754_finite s m e) = true ->
  -1074 <= e /\ (-1074 < e -> 2 ^ 52 <= Zpos m).
Proof.
  unfold valid_binary, bounded, canonical_mantissa. rewrite fexp_eq.
  intros H. apply andb_true_iff in H. destruct H as [H _].
  apply Z.eqb_eq in H.
  pose proof (digits2_bounds m) as [Hlo _]. split; [lia |].
  intros He. replace (Zpos (digits2_pos m) - 1) with 52 in Hlo by lia. exact Hlo.
Qed.

Local Open Scope float_scope.

(** *** The fractional part *)

Lemma valid_mantissa_bound s m e :
  valid_binary (S754_finite s m e) = true ->
  (Zpos m < 2 ^ 53 /\ (Zpos (digits2_pos m) + e <= 0 -> e <= -53))%Z.
Proof.
  unfold valid_binary, bounded, canonical_mantissa. rewrite fexp_eq.
  intros H. apply andb_true_iff in H. destruct H as [H _].
  apply Z.eqb_eq in H.
  pose proof (digits2_bounds m) as [_ Hhi]. split; [| lia].
  eapply Z.lt_le_trans; [exact Hhi |]. apply Z.pow_le_mono_r; lia.
Qed.

Lemma fractional_part_unit (n : float) :
  isFinite n = true -> inUnitSF (Prim2SF (n - Math_floor n)).
Proof.
  unfold isFinite, Math_floor. intros Hfin.
  rewrite sub_spec. unfold SF64sub.
  pose proof (Prim2SF_valid n) as Hvalid.
  destruct (Prim2SF n) as [s|s| |s m e] eqn:Hn; try discriminate.
  - rewrite Hn. destruct s; exact I.
  - destruct (Z.leb_spec 0 e) as [He|He].
    + rewrite Hn, SFsub_finite, Z.min_id, Z.sub_diag. exact I.
    + destruct (valid_mantissa_bound s m e Hvalid) as [Hm Hsub].
      set (a := cond_Zopp s (Zpos m)).
      assert (Ha : (Z.abs a = Zpos m)%Z) by (unfold a; destruct s; simpl; lia).
      rewrite Z.shiftr_div_pow2 by lia.
      set (k := (- e)%Z). set (q := (a / 2 ^ k)%Z).
      assert (Hk : (0 < 2 ^ k)%Z) by (apply Z.pow_pos_nonneg; lia).
      assert (Hdm : (a = 2 ^ k * q + a mod 2 ^ k)%Z) by (apply Z.div_mod; lia).
      assert (Hmod : (0 <= a mod 2 ^ k < 2 ^ k)%Z) by (apply Z.mod_pos_bound; lia).
      destruct (Z.eq_dec q 0) as [Hq0|Hq0].
      * rewrite Hq0.
        change (Prim2SF (Z2number 0)) with (S754_zero false). cbn [SFsub].
        assert (Ha0 : (a = a mod 2 ^ k)%Z) by (rewrite Hq0 in Hdm; lia).
        assert (Hs : s = false).
        { destruct s; auto. exfalso. unfold a in Ha0, Hmod. cbn [cond_Zopp] in *. lia. }
        subst s. cbn [inUnitSF]. left.
        assert (Hmk : (Zpos m < 2 ^ k)%Z)
          by (unfold a in Ha0, Hmod; cbn [cond_Zopp] in *; lia).
        pose proof (digits2_upper m k Hmk). unfold k in *. lia.
      * assert (Hqa : (Z.abs q <= Z.abs a)%Z).
        { assert (2 <= 2 ^ k)%Z.
          { change 2%Z with (2 ^ 1)%Z at 1. apply Z.pow_le_mono_r; lia. }
          nia. }
        destruct (binary_normalize_int q Hq0)
          as (mq & eq & Hnorm & Heq & Hval & Hvq & _); [lia |].
        unfold Z2number. rewrite Hnorm, Prim2SF_SF2Prim by exact Hvq.
        rewrite SFsub_finite. fold a. rewrite Hval.
        set (ez := Z.min e eq).
        apply binary_normalize_unit; [lia |].
        assert (Hp1 : (q * 2 ^ (- eq) * 2 ^ (eq - ez) = q * 2 ^ k * 2 ^ (e - ez))%Z).
        { rewrite <- !Z.mul_assoc, <- !Z.pow_add_r by lia.
          f_equal. f_equal. lia. }
        rewrite Hp1.
        replace (a * 2 ^ (e - ez) - q * 2 ^ k * 2 ^ (e - ez))%Z
          with ((a mod 2 ^ k) * 2 ^ (e - ez))%Z by lia.
        assert (Hp2 : (2 ^ (- ez) = 2 ^ k * 2 ^ (e - ez))%Z).
        { rewrite <- Z.pow_add_r by lia. f_equal. lia. }
        rewrite Hp2.
        assert (Hp3 : (0 < 2 ^ (e - ez))%Z) by (apply Z.pow_pos_nonneg; lia).
        nia.
Qed.

Lemma SFleb_finite_pos m e m' e' :
  SFleb (S754_finite false m e) (S754_finite false m' e') =
  match Z.compare e e' with
  | Lt => true
  | Gt => false
  | Eq => (m <=? m')%positive
  end.
Proof.
  unfold SFleb, SFcompare, Pos.leb.
  change (Pos.compare_cont Eq m m') with (Pos.compare m m').
  destruct (Z.compare e e'); reflexivity.
Qed.

Lemma inUnitSF_bounds (r : float) :
  inUnitSF (Prim2SF r) -> (0 <=? r) = true /\ (r <=? 1) = true.
Proof.
  rewrite !leb_spec.
  change (Prim2SF 0) with (S754_zero false).
  change (Prim2SF 1) with (S754_finite false 4503599627370496 (-52)).
  destruct (Prim2SF r) as [s|s| |[|] m e]; cbn [inUnitSF]; try contradiction.
  - intros _. split; reflexivity.
  - intros H. split; [reflexivity |].
    rewrite SFleb_finite_pos.
    destruct H as [H | [H1 H2]].
    + apply Z.compare_lt_iff in H. now rewrite H.
    + subst e. rewrite Z.compare_refl. apply Pos.leb_le.
      unfold Pos.le. rewrite Pos2Z.inj_compare. exact H2.
Qed.

Lemma SFltb_finite_neg m e m' e' :
  SFltb (S754_finite true m e) (S754_finite true m' e') =
  match Z.compare e e' with
  | Lt => false
  | Gt => true
  | Eq => (m' <? m)%positive
  end.
Proof.
  unfold SFltb, SFcompare, Pos.ltb.
  change (Pos.compare_cont Eq m m') with (Pos.compare m m').
  rewrite (Pos.compare_antisym m m').
  destruct (Z.compare e e'); reflexivity.
Qed.

Lemma strictDomain_spec (n : float) :
  isFinite n = true ->
  (0 <=? n) = true \/ (n <? -0x1p-53) = true ->
  strictDomainSF (Prim2SF n).
Proof.
  unfold isFinite. rewrite leb_spec, ltb_spec.
  change (Prim2SF 0) with (S754_zero false).
  change (Prim2SF (-0x1p-53)) with (S754_finite true 4503599627370496 (-105)).
  destruct (Prim2SF n) as [s|s| |[|] m e]; try discriminate; intros _;
    cbn [strictDomainSF]; auto.
  intros [H | H]; [discriminate H |].
  rewrite SFltb_finite_neg in H.
  destruct (Z.compare_spec e (-105)) as [He|He|He]; try discriminate H.
  - right. split; [exact He |].
    apply Pos.ltb_lt in H. unfold Pos.lt in H. rewrite Pos2Z.inj_compare in H.
    exact H.
  - left. exact He.
Qed.

Lemma fractional_part_below (n : float) :
  strictDomainSF (Prim2SF n) -> belowOneSF (Prim2SF (n - Math_floor n)).
Proof.
  unfold Math_floor. intros Hdom.
  rewrite sub_spec. unfold SF64sub.
  pose proof (Prim2SF_valid n) as Hvalid.
  destruct (Prim2SF n) as [s|s| |s m e] eqn:Hn; try contradiction.
  - rewrite Hn. destruct s; exact I.
  - destruct (Z.leb_spec 0 e) as [He|He].
    + rewrite Hn, SFsub_finite, Z.min_id, Z.sub_diag. exact I.
    + destruct (valid_mantissa_bound s m e Hvalid) as [Hm Hsub].
      destruct (valid_exponent s m e Hvalid) as [Hemin Hnormal].
      set (a := cond_Zopp s (Zpos m)).
      rewrite Z.shiftr_div_pow2 by lia.
      set (k := (- e)%Z). set (q := (a / 2 ^ k)%Z).
      assert (Hk : (0 < 2 ^ k)%Z) by (apply Z.pow_pos_nonneg; lia).
      assert (Hdm : (a = 2 ^ k * q + a mod 2 ^ k)%Z) by (apply Z.div_mod; lia).
      assert (Hmod : (0 <= a mod 2 ^ k < 2 ^ k)%Z) by (apply Z.mod_pos_bound; lia).
      assert (Hk2 : (2 <= 2 ^ k)%Z).
      { change 2%Z with (2 ^ 1)%Z at 1. apply Z.pow_le_mono_r; lia. }
      destruct (Z.eq_dec q 0) as [Hq0|Hq0].
      * rewrite Hq0.
        change (Prim2SF (Z2number 0)) with (S754_zero false). cbn [SFsub].
        assert (Ha0 : (a = a mod 2 ^ k)%Z) by (rewrite Hq0 in Hdm; lia).
        assert (Hs : s = false).
        { destruct s; auto. exfalso. unfold a in Ha0, Hmod. cbn [cond_Zopp] in *. lia. }
        subst s. cbn [belowOneSF].
        assert (Hmk : (Zpos m < 2 ^ k)%Z)
          by (unfold a in Ha0, Hmod; cbn [cond_Zopp] in *; lia).
        pose proof (digits2_upper m k Hmk). unfold k in *. lia.
      * assert (Habs : (Z.abs a = Zpos m)%Z) by (unfold a; destruct s; simpl; lia).
        assert (Hqa : (Z.abs q <= Z.abs a)%Z) by nia.
        destruct (binary_normalize_int q Hq0)
          as (mq & eq & Hnorm & Heq & Hval & Hvq & Hqhi); [lia |].
        (* the exponent of the floor is not below that of [n] *)
        assert (Hee : (e <= eq)%Z).
        { destruct (Z.le_gt_cases 53 k) as [Hk53|Hk53].
          - assert (1 < 2 ^ (eq + 53))%Z by lia.
            destruct (Z.le_gt_cases (eq + 53) 0) as [Hneg|Hpos]; [| lia].
            exfalso.
            destruct (Z.eq_dec (eq + 53) 0) as [E0|E0].
            + rewrite E0 in H. simpl in H. lia.
            + rewrite Z.pow_neg_r in H by lia. lia.
          - assert (Hn52 : (2 ^ 52 <= Zpos m)%Z) by (apply Hnormal; lia).
            assert (Hsplit : (2 ^ 52 = 2 ^ k * 2 ^ (52 - k))%Z).
            { rewrite <- Z.pow_add_r by lia. f_equal. lia. }
            assert (Hp : (0 < 2 ^ (52 - k))%Z) by (apply Z.pow_pos_nonneg; lia).
            assert (Hqlo : (2 ^ (52 - k) <= Z.abs q)%Z).
            { unfold a in Hdm, Hmod. destruct s; cbn [cond_Zopp] in *; nia. }
            assert (Hlt : (2 ^ (52 - k) < 2 ^ (eq + 53))%Z) by lia.
            destruct (Z.le_gt_cases 0 (eq + 53)) as [Hnn|Hneg].
            + apply Z.pow_lt_mono_r_iff in Hlt; lia.
            + rewrite (Z.pow_neg_r 2 (eq + 53)) in Hlt by lia. lia. }
        unfold Z2number. rewrite Hnorm, Prim2SF_SF2Prim by exact Hvq.
        rewrite SFsub_finite. fold a. rewrite Hval.
        rewrite Z.min_l by exact Hee. rewrite Z.sub_diag.
        change (2 ^ 0)%Z with 1%Z. rewrite Z.mul_1_r.
        assert (Hp1 : (q * 2 ^ (- eq) * 2 ^ (eq - e) = q * 2 ^ k)%Z).
        { rewrite <- !Z.mul_assoc, <- !Z.pow_add_r by lia.
          f_equal. f_equal. unfold k. lia. }
        rewrite Hp1.
        replace (a - q * 2 ^ k)%Z with (a mod 2 ^ k)%Z by lia.
        apply binary_normalize_below; [lia | exact Hmod |].
        intros p Hp Hfe. rewrite fexp_eq in *.
        pose proof (digits2_bounds p) as [Hlo Hhi].
        set (d := Zpos (digits2_pos p)) in *.
        assert (Hd53 : (53 < d)%Z) by lia.
        replace (Z.max (d + e - 53) (-1074) - e)%Z with (d - 53)%Z by lia.
        fold k.
        assert (H53 : (2 ^ 53 <= 2 ^ (d - 1))%Z) by (apply Z.pow_le_mono_r; lia).
        assert (Hdk : (d <= k)%Z).
        { apply digits2_upper. rewrite <- Hp. lia. }
        destruct s.
        -- unfold a in *. cbn [cond_Zopp] in *.
           assert (Hk53 : (2 ^ 53 < 2 ^ k)%Z) by (apply Z.pow_lt_mono_r; lia).
           assert (Hq1 : q = (-1)%Z) by nia.
           assert (HD : (Z.neg m mod 2 ^ k = 2 ^ k - Zpos m)%Z)
             by (rewrite Hq1 in Hdm; lia).
           assert (Hdk53 : (2 ^ (d - 53) <= 2 ^ (k - 53))%Z)
             by (apply Z.pow_le_mono_r; lia).
           assert (Hmbig : (2 ^ (k - 53) < Zpos m)%Z).
           { cbn [strictDomainSF] in Hdom. destruct Hdom as [Hd1 | [Hd1 Hd2]].
             - assert (2 ^ (k - 53) <= 2 ^ 51)%Z by (apply Z.pow_le_mono_r; lia).
               assert (2 ^ 52 <= Zpos m)%Z by (apply Hnormal; lia).
               assert (2 ^ 51 < 2 ^ 52)%Z by (apply Z.pow_lt_mono_r; lia).
               lia.
             - replace (k - 53)%Z with 52%Z by lia. exact Hd2. }
           lia.
        -- exfalso. unfold a in *. cbn [cond_Zopp] in *.
           assert (Zpos m mod 2 ^ k <= Zpos m)%Z by (apply Z.mod_le; lia).
           lia.
Qed.

Lemma belowOneSF_bounds (r : float) :
  belowOneSF (Prim2SF r) -> (r <? 1) = true.
Proof.
  rewrite ltb_spec.
  change (Prim2SF 1) with (S754_finite false 4503599627370496 (-52)).
  destruct (Prim2SF r) as [s|s| |[|] m e]; cbn [belowOneSF]; try contradiction.
  - intros _. reflexivity.
  - intros H. unfold SFltb, SFcompare.
    apply Z.compare_lt_iff in H. now rewrite H.
Qed.

End FloatFacts.

(** *** Rounding to nearest even, bit by bit *)

Module RoundingFacts.

Import FloatFacts.

Local Open Scope Z_scope.

Lemma shr_1_fields mrs :
  0 <= shr_m mrs ->
  shr_1 mrs =
  {| shr_m := shr_m mrs / 2;
     shr_r := Z.odd (shr_m mrs);
     shr_s := shr_r mrs || shr_s mrs |}.
Proof.
  intros H. pose proof (shr_1_m mrs H) as Hm.
  destruct mrs as [m r s]. cbn [shr_m shr_r shr_s] in *.
  rewrite <- Hm.
  destruct m as [|[p|p|]|p]; try lia; reflexivity.
Qed.

Section Shifted.

Variable x : Z.
Hypothesis Hx : 0 <= x.

(** The record of [x] after [j] shifts: the quotient, the bit shifted out
    last and whether a bit shifted out before was set. *)
Let shifted (j : Z) : shr_record :=
  {| shr_m := x / 2 ^ j;
     shr_r := (0 <? j) && Z.odd (x / 2 ^ (j - 1));
     shr_s := (0 <? j) && negb (x mod 2 ^ (j - 1) =? 0) |}.

Lemma shr_1_shifted j : 0 <= j -> shr_1 (shifted j) = shifted (j + 1).
Proof.
  intros Hj.
  assert (Hp : 0 < 2 ^ j) by (apply Z.pow_pos_nonneg; lia).
  rewrite shr_1_fields by (cbn [shifted shr_m]; apply Z.div_pos; lia).
  unfold shifted. cbn [shr_m shr_r shr_s].
  replace (j + 1 - 1) with j by lia.
  assert (H1 : (0 <? j + 1) = true) by (apply Z.ltb_lt; lia).
  rewrite H1. cbn [andb].
  f_equal.
  - rewrite Z.div_div by lia. f_equal.
    rewrite Z.pow_add_r by lia. reflexivity.
  - destruct (Z.ltb_spec 0 j) as [Hpos|Hzero]; cbn [andb orb].
    + assert (Hq : 0 < 2 ^ (j - 1)) by (apply Z.pow_pos_nonneg; lia).
      assert (E : 2 ^ j = 2 ^ (j - 1) * 2).
      { replace j with (j - 1 + 1) at 1 by lia.
        rewrite Z.pow_add_r by lia. reflexivity. }
      rewrite E, Z.rem_mul_r by lia.
      rewrite Zmod_odd.
      pose proof (Z.mod_pos_bound x (2 ^ (j - 1)) Hq) as Hlo.
      destruct (Z.odd (x / 2 ^ (j - 1))); cbn [orb].
      * symmetry. apply negb_true_iff. apply Z.eqb_neq. lia.
      * rewrite Z.mul_0_r, Z.add_0_r. reflexivity.
    + replace j with 0 by lia. rewrite Z.pow_0_r, Z.mod_1_r. reflexivity.
Qed.

Lemma iter_shr_1_shifted p : forall j,
  0 <= j -> SpecFloat.iter_pos shr_1 p (shifted j) = shifted (j + Zpos p).
Proof.
  induction p as [p IH|p IH|]; intros j Hj; cbn [SpecFloat.iter_pos].
  - rewrite shr_1_shifted, IH, IH by lia. f_equal. lia.
  - rewrite IH, IH by lia. f_equal. lia.
  - now apply shr_1_shifted.
Qed.

Lemma shr_exact p :
  SpecFloat.iter_pos shr_1 p (shr_record_of_loc x loc_Exact) =
  {| shr_m := x / 2 ^ Zpos p;
     shr_r := Z.odd (x / 2 ^ (Zpos p - 1));
     shr_s := negb (x mod 2 ^ (Zpos p - 1) =? 0) |}.
Proof.
  assert (E : shr_record_of_loc x loc_Exact = shifted 0).
  { unfold shifted. cbn. now rewrite Z.div_1_r. }
  rewrite E, iter_shr_1_shifted by lia.
  unfold shifted. cbn [Z.add]. reflexivity.
Qed.

End Shifted.

(** The double nearest to [1 - m * 2^-k] for a positive [m * 2^-k] of at
    most [2^-53]: 1 when [m * 2^-k <= 2^-54] (the tie at [2^-54] goes to
    the even mantissa), the predecessor of 1 above that. *)
Lemma binary_normalize_near_one m k :
  105 <= k -> Zpos m < 2 ^ 53 -> Zpos m <= 2 ^ (k - 53) ->
  binary_normalize prec emax (2 ^ k - Zpos m) (- k) false =
  if Zpos m <=? 2 ^ (k - 54)
  then S754_finite false 4503599627370496 (-52)
  else S754_finite false 9007199254740991 (-53).
Proof.
  intros Hk Hm Hmj.
  assert (H53 : 2 ^ 53 <= 2 ^ (k - 1)) by (apply Z.pow_le_mono_r; lia).
  assert (Hk2 : 2 ^ k = 2 ^ (k - 1) * 2).
  { replace k with (k - 1 + 1) at 1 by lia. now rewrite Z.pow_add_r by lia. }
  assert (Hj2 : 2 ^ (k - 53) = 2 ^ (k - 54) * 2).
  { replace (k - 53) with (k - 54 + 1) by lia. now rewrite Z.pow_add_r by lia. }
  assert (Hkj : 2 ^ k = 2 ^ 53 * 2 ^ (k - 53)).
  { rewrite <- Z.pow_add_r by lia. f_equal. lia. }
  assert (Hj0 : 0 < 2 ^ (k - 54)) by (apply Z.pow_pos_nonneg; lia).
  destruct (2 ^ k - Zpos m) as [|D|D] eqn:HD; try lia.
  cbn [binary_normalize]. unfold binary_round.
  assert (Hdig : Zpos (digits2_pos D) = k).
  { pose proof (digits2_bounds D) as (Hlo & Hhi).
    assert (Hup : Zpos (digits2_pos D) <= k) by (apply digits2_upper; lia).
    assert (Hlt : 2 ^ (k - 1) < 2 ^ Zpos (digits2_pos D)) by lia.
    apply Z.pow_lt_mono_r_iff in Hlt; lia. }
  rewrite Hdig. replace (k + - k) with 0 by lia.
  change (fexp prec emax 0) with (-53).
  unfold shl_align.
  destruct (-53 - - k) as [|j|j] eqn:Hj; try lia.
  unfold binary_round_aux, shr_fexp at 1. cbn [Zdigits2].
  rewrite Hdig. replace (k + - k) with 0 by lia.
  change (fexp prec emax 0) with (-53). rewrite Hj.
  unfold shr at 1. rewrite shr_exact by lia.
  replace (- k + Zpos j) with (-53) by lia.
  replace (Zpos j) with (k - 53) by lia.
  replace (k - 53 - 1) with (k - 54) by lia.
  cbn [shr_m].
  assert (Hq : Zpos D / 2 ^ (k - 53) = 9007199254740991).
  { symmetry. apply Z.div_unique with (2 ^ (k - 53) - Zpos m); [lia |].
    change 9007199254740991 with (2 ^ 53 - 1). lia. }
  rewrite Hq.
  destruct (Z.leb_spec (Zpos m) (2 ^ (k - 54))) as [Hle|Hgt].
  - assert (Hr : Zpos D / 2 ^ (k - 54) = 18014398509481983).
    { symmetry. apply Z.div_unique with (2 ^ (k - 54) - Zpos m); [lia |].
      change 18014398509481983 with (2 ^ 54 - 1). lia. }
    rewrite Hr.
    destruct (negb (Zpos D mod 2 ^ (k - 54) =? 0)); reflexivity.
  - assert (Hr : Zpos D / 2 ^ (k - 54) = 18014398509481982).
    { symmetry. apply Z.div_unique with (2 ^ (k - 53) - Zpos m); [lia |].
      change 18014398509481982 with (2 ^ 54 - 2). lia. }
    rewrite Hr.
    destruct (negb (Zpos D mod 2 ^ (k - 54) =? 0)); reflexivity.
Qed.

Lemma binary_normalize_near_one_exp m e :
  e <= -105 -> Zpos m < 2 ^ 53 -> Zpos m <= 2 ^ (- e - 53) ->
  binary_normalize prec emax (2 ^ (- e) - Zpos m) e false =
  if Zpos m <=? 2 ^ (- e - 54)
  then S754_finite false 4503599627370496 (-52)
  else S754_finite false 9007199254740991 (-53).
Proof.
  intros He Hm Hmj.
  rewrite <- (binary_normalize_near_one m (- e)) by lia.
  f_equal. lia.
Qed.

Local Open Scope float_scope.

Lemma SFleb_finite_neg m e m' e' :
  SFleb (S754_finite true m e) (S754_finite true m' e') =
  match Z.compare e e' with
  | Lt => false
  | Gt => true
  | Eq => (m' <=? m)%positive
  end.
Proof.
  unfold SFleb, SFcompare, Pos.leb.
  change (Pos.compare_cont Eq m m') with (Pos.compare m m').
  rewrite (Pos.compare_antisym m m').
  destruct (Z.compare e e'); try reflexivity.
Qed.

Lemma roundsToOne_spec (n : float) :
  (-0x1p-54 <=? n) = true /\ (n <? 0) = true <-> roundsToOneSF (Prim2SF n).
Proof.
  rewrite leb_spec, ltb_spec.
  change (Prim2SF 0) with (S754_zero false).
  change (Prim2SF (-0x1p-54)) with (S754_finite true 4503599627370496 (-106)).
  destruct (Prim2SF n) as [s|s| |[|] m e]; cbn [roundsToOneSF];
    try (split; [intros [H1 H2]; try destruct s; discriminate | contradiction]).
  rewrite SFleb_finite_neg. split.
  - intros [H _].
    destruct (Z.compare_spec (-106) e) as [He|He|He]; try discriminate H.
    + right. split; [lia |].
      apply Pos.leb_le in H. unfold Pos.le in H.
      rewrite Pos2Z.inj_compare in H. exact H.
    + left. lia.
  - intros H. split; [| reflexivity].
    destruct H as [H | [-> H]].
    + assert (E : (-106 ?= e)%Z = Gt) by (apply Z.compare_gt_iff; lia).
      now rewrite E.
    + rewrite Z.compare_refl. apply Pos.leb_le. unfold Pos.le.
      rewrite Pos2Z.inj_compare. exact H.
Qed.

(** The fractional part of a negative number of magnitude at most
    [2^-53], before rounding. *)
Lemma fractional_part_near_zero (n : float) m e :
  Prim2SF n = S754_finite true m e -> (e <= -105)%Z ->
  Prim2SF (n - Math_floor n) =
  binary_normalize prec emax (2 ^ (- e) - Zpos m) e false.
Proof.
  intros Hn He. pose proof (Prim2SF_valid n) as Hv. rewrite Hn in Hv.
  destruct (valid_mantissa_bound _ _ _ Hv) as [Hm _].
  assert (H53 : (2 ^ 53 <= 2 ^ (- e))%Z) by (apply Z.pow_le_mono_r; lia).
  unfold Math_floor. rewrite sub_spec. rewrite Hn.
  assert (E0 : (0 <=? e)%Z = false) by (apply Z.leb_gt; lia).
  rewrite E0. cbn [cond_Zopp].
  assert (Hq : Z.shiftr (- Zpos m) (- e) = (-1)%Z).
  { rewrite Z.shiftr_div_pow2 by lia. symmetry.
    apply Z.div_unique with (2 ^ (- e) - Zpos m)%Z; lia. }
  rewrite Hq.
  change (Prim2SF (Z2number (-1)))
    with (S754_finite true 4503599627370496 (-52)).
  unfold SF64sub. rewrite SFsub_finite.
  rewrite Z.min_l by lia. rewrite Z.sub_diag.
  cbn [cond_Zopp]. change (Z.neg 4503599627370496) with (- 2 ^ 52)%Z.
  f_equal.
  change (2 ^ 0)%Z with 1%Z.
  assert (E : (2 ^ (- e) = 2 ^ 52 * 2 ^ (-52 - e))%Z).
  { rewrite <- Z.pow_add_r by lia. f_equal. lia. }
  rewrite E. lia.
Qed.

Lemma fractional_part_one (n : float) :
  roundsToOneSF (Prim2SF n) -> n - Math_floor n = 1.
Proof.
  intros Hone. pose proof (Prim2SF_valid n) as Hv.
  destruct (Prim2SF n) as [s|s| |[|] m e] eqn:Hn; try contradiction.
  cbn [roundsToOneSF] in Hone.
  destruct (valid_mantissa_bound _ _ _ Hv) as [Hm _].
  apply Prim2SF_inj.
  rewrite (fractional_part_near_zero n m e Hn) by lia.
  assert (Hj : (2 ^ 53 <= 2 ^ (- e - 53))%Z \/ (e = -106)%Z).
  { destruct (Z.eq_dec e (-106)); [now right | left].
    apply Z.pow_le_mono_r; lia. }
  rewrite binary_normalize_near_one_exp; try lia.
  - assert (Hle : (Zpos m <=? 2 ^ (- e - 54))%Z = true).
    { apply Z.leb_le. destruct Hone as [He | [-> Hm52]].
      - assert (2 ^ 53 <= 2 ^ (- e - 54))%Z by (apply Z.pow_le_mono_r; lia).
        lia.
      - exact Hm52. }
    rewrite Hle. reflexivity.
  - destruct Hj as [Hj | ->]; [lia |].
    change (2 ^ (- -106 - 53))%Z with (2 ^ 53)%Z. lia.
Qed.

Lemma fractional_part_below_near_zero (n : float) :
  isFinite n = true -> ~ roundsToOneSF (Prim2SF n) ->
  belowOneSF (Prim2SF (n - Math_floor n)).
Proof.
  intros Hfin Hnot. pose proof (Prim2SF_valid n) as Hv.
  destruct (Prim2SF n) as [s|s| |s m e] eqn:Hn;
    try (unfold isFinite in Hfin; rewrite Hn in Hfin; discriminate Hfin).
  - apply fractional_part_below. rewrite Hn. exact I.
  - destruct s; [| apply fractional_part_below; rewrite Hn; exact I].
    cbn [roundsToOneSF] in Hnot.
    destruct (valid_mantissa_bound _ _ _ Hv) as [Hm _].
    destruct (valid_exponent _ _ _ Hv) as [Hemin Hnormal].
    destruct (Z.le_gt_cases e (-105)) as [He|He].
    + assert (He' : (e = -105 \/ e = -106)%Z) by lia.
      assert (Hm52 : (2 ^ 52 <= Zpos m)%Z) by (apply Hnormal; lia).
      destruct (Z.eq_dec (Zpos m) (2 ^ 52)) as [Heq|Hne];
        [| destruct (Z.eq_dec e (-105)) as [->|He105]].
      * (* n = -2^-53 *)
        assert (e = -105)%Z by lia. subst e.
        rewrite (fractional_part_near_zero n m _ Hn) by lia.
        rewrite binary_normalize_near_one_exp by lia.
        assert (Hgt : (Zpos m <=? 2 ^ (- -105 - 54))%Z = false)
          by (apply Z.leb_gt; lia).
        rewrite Hgt. cbn [belowOneSF]. lia.
      * apply fractional_part_below. rewrite Hn. cbn [strictDomainSF].
        right. split; [reflexivity | lia].
      * assert (e = -106)%Z by lia. subst e.
        rewrite (fractional_part_near_zero n m _ Hn) by lia.
        rewrite binary_normalize_near_one_exp by lia.
        assert (Hgt : (Zpos m <=? 2 ^ (- -106 - 54))%Z = false)
          by (apply Z.leb_gt; lia).
        rewrite Hgt. cbn [belowOneSF]. lia.
    + apply fractional_part_below. rewrite Hn. cbn [strictDomainSF].
      left. lia.
Qed.

End RoundingFacts.


(** ** [Map] lemmas *)

Module JSMapFacts.
Import JSMap.

Section WithValues.
Context {V : Type}.
Implicit Types (m : JSMap.t V) (k : string) (v : V).

Lemma get_set_same k v m : get k (set k v m) = Some v.
Proof.
  induction m as [|[k' v'] m IH]; simpl.
  - now rewrite String.eqb_refl.
  - destruct (String.eqb k k') eqn:E; simpl; rewrite E; auto.
Qed.

Lemma get_set_other k k' v m : k <> k' -> get k (set k' v m) = get k m.
Proof.
  intros Hne. induction m as [|[k0 v0] m IH]; simpl.
  - apply String.eqb_neq in Hne. now rewrite Hne.
  - destruct (String.eqb k' k0) eqn:E; simpl.
    + apply String.eqb_eq in E. subst k0.
      apply String.eqb_neq in Hne. now rewrite Hne.
    + now rewrite IH.
Qed.

Lemma has_get k m : (if has k m then get k m else None) = get k m.
Proof. unfold has. now destruct (get k m). Qed.

Lemma get_None_keys k m : get k m = None <-> ~ In k (keys m).
Proof.
  induction m as [|[k' v'] m IH]; simpl.
  - tauto.
  - destruct (String.eqb k k') eqn:E.
    + apply String.eqb_eq in E. split; [discriminate | intros H; exfalso; auto].
    + apply String.eqb_neq in E. rewrite IH. split.
      * intros H [H'|H']; [now subst | auto].
      * tauto.
Qed.

Lemma keys_set k v m : forall k', In k' (keys (set k v m)) <-> k' = k \/ In k' (keys m).
Proof.
  induction m as [|[k0 v0] m IH]; simpl; intros k'.
  - intuition.
  - destruct (String.eqb k k0) eqn:E; simpl.
    + apply String.eqb_eq in E. subst. intuition.
    + rewrite IH. intuition.
Qed.

Lemma set_fresh k v m : ~ In k (keys m) -> set k v m = m ++ [(k, v)].
Proof.
  induction m as [|[k0 v0] m IH]; simpl; intros H; auto.
  destruct (String.eqb k k0) eqn:E.
  - apply String.eqb_eq in E. subst. tauto.
  - rewrite IH; tauto.
Qed.

Lemma NoDup_keys_set k v m : NoDup (keys m) -> NoDup (keys (set k v m)).
Proof.
  induction m as [|[k0 v0] m IH]; simpl; intros H.
  - constructor; [simpl; tauto | constructor].
  - inversion H as [|? ? Hn Hd]; subst.
    destruct (String.eqb k k0) eqn:E; simpl.
    + now constructor.
    + constructor; auto. rewrite keys_set. apply String.eqb_neq in E.
      intros [->|]; tauto.
Qed.

Lemma build_fresh (es : list (string * V)) : forall acc : JSMap.t V,
  NoDup (keys acc ++ map fst es) -> build acc es = acc ++ es.
Proof.
  induction es as [|[k v] es IH]; simpl; intros acc H.
  - now rewrite app_nil_r.
  - assert (Hk : ~ In k (keys acc)).
    { apply NoDup_remove_2 in H. rewrite in_app_iff in H. tauto. }
    unfold build in *. simpl. rewrite set_fresh by assumption.
    rewrite IH.
    + now rewrite <- app_assoc.
    + unfold keys in *. rewrite map_app. simpl. rewrite <- app_assoc. exact H.
Qed.

(** Building a map from the entries of a map gives the map back. *)
Lemma of_entries_entries m : NoDup (keys m) -> of_entries (entries m) = m.
Proof.
  intros H. unfold of_entries, entries. apply (build_fresh m empty). exact H.
Qed.

Lemma keys_build (es : list (string * V)) : forall (acc : JSMap.t V) k,
  In k (keys (build acc es)) <-> In k (keys acc) \/ In k (map fst es).
Proof.
  induction es as [|[k0 v0] es IH]; simpl; intros acc k.
  - tauto.
  - unfold build in *. simpl. rewrite IH, keys_set. intuition.
Qed.

Lemma NoDup_keys_build (es : list (string * V)) : forall acc : JSMap.t V,
  NoDup (keys acc) -> NoDup (keys (build acc es)).
Proof.
  induction es as [|[k0 v0] es IH]; simpl; intros acc H; auto.
  apply IH. now apply NoDup_keys_set.
Qed.

(** Entries whose key is not [k] do not change what [k] maps to. *)
Lemma get_build_filter (keep : string -> bool) k (es : list (string * V)) :
  forall acc acc' : JSMap.t V,
  keep k = true ->
  get k acc = get k acc' ->
  get k (build acc es) =
  get k (build acc' (filter (fun e => keep (fst e)) es)).
Proof.
  induction es as [|[k0 v0] es IH]; simpl; intros acc acc' Hk Hacc; auto.
  destruct (keep k0) eqn:E; simpl.
  - apply IH; auto.
    destruct (String.eqb k k0) eqn:E'.
    + apply String.eqb_eq in E'. subst. now rewrite !get_set_same.
    + apply String.eqb_neq in E'. now rewrite !get_set_other.
  - apply IH; auto. rewrite get_set_other; auto.
    intros ->. congruence.
Qed.

End WithValues.

End JSMapFacts.

(** ** The noise primitive *)

Section NoiseProperties.

Variable Math_sin : float -> float.

(** [n - Math.floor(n)] at a finite [n] is a number from 0 to 1, both
    included. *)
Lemma fractional_part_bounds (n : float) :
  isFinite n = true ->
  (0 <=? n - Math_floor n) = true /\ (n - Math_floor n <=? 1) = true.
Proof.
  intros H. apply FloatFacts.inUnitSF_bounds.
  now apply FloatFacts.fractional_part_unit.
Qed.

(** It is below 1 when [n] is not negative, or is below [-2^-53]. *)
Lemma fractional_part_below_one (n : float) :
  isFinite n = true ->
  (0 <=? n) = true \/ (n <? -0x1p-53) = true ->
  (n - Math_floor n <? 1) = true.
Proof.
  intros Hfin Hdom. apply FloatFacts.belowOneSF_bounds.
  apply FloatFacts.fractional_part_below.
  now apply FloatFacts.strictDomain_spec.
Qed.

(** At NaN and at the infinities it is NaN. *)
Lemma fractional_part_nan (n : float) :
  isFinite n = false -> isNaN (n - Math_floor n) = true.
Proof.
  unfold isFinite, isNaN, Math_floor. rewrite sub_spec.
  destruct (Prim2SF n) as [s|s| |s m e] eqn:E; intros H; try discriminate H;
    rewrite E; try destruct s; reflexivity.
Qed.

(** When the argument of the sine is infinite and the sine is NaN there, as
    ECMAScript requires, the noise is NaN. *)
Lemma noise_nan_at_infinity (this : PRNG) (x y layer : float) :
  x * 12.9898 + y * 78.233 + Z2number (seed this) + layer * 131.2 = infinity ->
  Math_sin infinity = nan ->
  isNaN (noise Math_sin this x y layer) = true.
Proof.
  intros Harg Hsin. unfold noise. rewrite Harg, Hsin.
  reflexivity.
Qed.

(** The difference is 1 exactly for the negative [n] from [-2^-54] on:
    there [1 - |n|] rounds to 1; everywhere else it is below 1. *)
Lemma fractional_part_one_iff (n : float) :
  isFinite n = true ->
  ((n - Math_floor n <? 1) = true <->
   ~ ((-0x1p-54 <=? n) = true /\ (n <? 0) = true)) /\
  (n - Math_floor n = 1 <->
   (-0x1p-54 <=? n) = true /\ (n <? 0) = true).
Proof.
  intros Hfin. rewrite RoundingFacts.roundsToOne_spec.
  assert (Hdec : roundsToOneSF (Prim2SF n) \/ ~ roundsToOneSF (Prim2SF n)).
  { destruct (Prim2SF n) as [s|s| |[|] m e]; cbn [roundsToOneSF]; auto.
    destruct (Z_lt_dec e (-106)); [left; lia |].
    destruct (Z.eq_dec e (-106)); [| right; lia].
    destruct (Z_le_dec (Zpos m) (2 ^ 52)); [left | right]; lia. }
  destruct Hdec as [Hone | Hnot].
  - pose proof (RoundingFacts.fractional_part_one n Hone) as E.
    rewrite E, FloatOrder.ltb_irrefl. split.
    + split; [discriminate | intros H; contradiction].
    + split; auto.
  - pose proof (RoundingFacts.fractional_part_below_near_zero n Hfin Hnot)
      as Hbelow.
    apply FloatFacts.belowOneSF_bounds in Hbelow. split.
    + split; auto.
    + split; [| intros H; contradiction].
      intros E. rewrite E, FloatOrder.ltb_irrefl in Hbelow. discriminate.
Qed.

(** C8 (as the code has it by design): [noise(x, y, layer)] is a function
    of the seed and its arguments, equal to [n - Math.floor(n)] for
    [n = sin(x*12.9898 + y*78.233 + seedInt + layer*131.2) * 43758.5453].
    When [n] is finite the result is a number in the closed interval from 0
    to 1; it is below 1 except for the negative [n] from [-2^-54] on, and
    for those it is 1. *)
Theorem noise_fractional_part (this : PRNG) (x y layer : float) :
  let n :=
    Math_sin (x * 12.9898 + y * 78.233 + Z2number (seed this) + layer * 131.2)
    * 43758.5453 in
  noise Math_sin this x y layer = n - Math_floor n /\
  (isFinite n = true ->
     (0 <=? noise Math_sin this x y layer) = true /\
     (noise Math_sin this x y layer <=? 1) = true /\
     ((noise Math_sin this x y layer <? 1) = true <->
      ~ ((-0x1p-54 <=? n) = true /\ (n <? 0) = true)) /\
     (noise Math_sin this x y layer = 1 <->
      (-0x1p-54 <=? n) = true /\ (n <? 0) = true)).
Proof.
  intros n. split; [reflexivity |].
  intros Hfin. change (noise Math_sin this x y layer) with (n - Math_floor n).
  destruct (fractional_part_bounds n Hfin) as [H0 H1].
  destruct (fractional_part_one_iff n Hfin) as [Hlt Heq].
  auto.
Qed.

End NoiseProperties.

(** The upper bound 1 is reached by [n - Math.floor(n)]: at [n = -2^-54]
    the exact difference [1 - 2^-54] rounds to 1. *)
Lemma fractional_part_reaches_one :
  let n := (-0x1p-54)%float in n - Math_floor n = 1.
Proof. vm_compute. reflexivity. Qed.

(** The seed ["s9l0cue"] hashes to 0. *)
Lemma hashString_zero : hashString "s9l0cue" = 0%Z.
Proof. vm_compute. reflexivity. Qed.

(** The noise itself reaches 1: with the seed that hashes to 0, at
    [x = -1e-25], [y = 0] and layer 0 the argument of the sine is about
    [-1.3e-24]; a sine that returns so small an argument unchanged (the
    correctly rounded value) makes [n] a tiny negative number, and
    [n - Math.floor(n)] rounds to 1. *)
Lemma noise_reaches_one (Math_sin : float -> float) :
  Math_sin (-1.2989800000000001e-24) = (-1.2989800000000001e-24) ->
  noise Math_sin (new_PRNG "s9l0cue") (-1e-25) 0 0 = 1.
Proof.
  intros Hsin.
  assert (Harg : (-1e-25) * 12.9898 + 0 * 78.233
                 + Z2number (seed (new_PRNG "s9l0cue")) + 0 * 131.2
                 = (-1.2989800000000001e-24))
    by (vm_compute; reflexivity).
  unfold noise. rewrite Harg, Hsin. vm_compute. reflexivity.
Qed.

(** ** Coordinate keys *)

Module KeyFacts.

Lemma digits_hasComma d : hasComma (NilEmpty.string_of_uint d) = false.
Proof. induction d; simpl; auto. Qed.

Lemma Number_toString_hasComma z : hasComma (Number_toString z) = false.
Proof.
  unfold Number_toString.
  destruct (Z.to_int z) as [d|d]; simpl;
    destruct d; simpl; auto using digits_hasComma.
Qed.

Lemma splitAtComma_app a b :
  hasComma a = false ->
  splitAtComma (a ++ String ","%char b) = Some (a, b).
Proof.
  induction a as [|c a IH]; simpl; intros H.
  - reflexivity.
  - apply orb_false_iff in H. destruct H as [Hc Ha].
    rewrite Hc, IH by assumption. reflexivity.
Qed.

Lemma splitAtComma_hasComma s : hasComma s = false -> splitAtComma s = None.
Proof.
  induction s as [|c s IH]; simpl; intros H; auto.
  apply orb_false_iff in H. destruct H as [Hc Hs].
  now rewrite Hc, IH.
Qed.

Lemma decodeInteger_toString z : decodeInteger (Number_toString z) = Some z.
Proof.
  unfold decodeInteger, Number_toString.
  rewrite NilZero.isi.
  - simpl. now rewrite DecimalZ.of_to.
  - destruct z; simpl; try discriminate.
    intros [= H]. now apply DecimalPos.Unsigned.to_uint_nonnil in H.
  - destruct z; simpl; try discriminate.
    intros [= H]. now apply DecimalPos.Unsigned.to_uint_nonnil in H.
Qed.

(** Reading back the key of a coordinate pair gives the pair. *)
Lemma decodeKey_coordKey x y : decodeKey (coordKey x y) = Some (x, y).
Proof.
  unfold decodeKey, coordKey. simpl.
  rewrite splitAtComma_app by apply Number_toString_hasComma.
  now rewrite !decodeInteger_toString.
Qed.

(** The encoding of coordinates is injective. *)
Lemma coordKey_inj x y x' y' : coordKey x y = coordKey x' y' -> x = x' /\ y = y'.
Proof.
  intros H. apply (f_equal decodeKey) in H.
  rewrite !decodeKey_coordKey in H. now injection H.
Qed.

Lemma wellFormedKey_coordKey x y : wellFormedKey (coordKey x y) = true.
Proof. unfold wellFormedKey. now rewrite decodeKey_coordKey. Qed.

End KeyFacts.

(** ** Biome determination *)

Section BiomeProperties.

Import FloatOrder.

(** The chain ends in an unconditional [else]: some label is assigned
    whatever the noise is, NaN included. *)
Lemma biomeDetermination_label biome biomeNoise :
  In (biomeDetermination biome biomeNoise) caseLabels.
Proof.
  unfold biomeDetermination, caseLabels.
  repeat match goal with
  | |- context [if ?c then _ else _] => destruct c
  end; simpl; tauto.
Qed.

(** Two thresholds in the wrong order around the same number. *)
Ltac order_clash v :=
  match goal with
  | H1 : (?a <=? v) = true, H2 : (?b <=? v) = false |- _ =>
      exfalso;
      assert ((b <=? v) = true)
        by (apply (leb_trans b a v); [reflexivity | exact H1]);
      congruence
  end.

Lemma biomeDetermination_bands biome biomeNoise :
  Spec.inBand 0 1 biomeNoise ->
  forall lo hi name,
    In (lo, hi, name) Spec.biomeBands ->
    (biomeDetermination biome biomeNoise = name <->
     Spec.inBand lo hi biomeNoise).
Proof.
  unfold Spec.inBand. intros [H0 H1] lo hi name Hin.
  assert (Hord : ordered biomeNoise) by (apply leb_ordered in H0; tauto).
  assert (Hlt : forall c, ordered c -> (biomeNoise <? c) = negb (c <=? biomeNoise))
    by (intros c Hc; now apply ltb_negb_leb).
  assert (Hk : forall c, (c <=? c) = true -> ordered c)
    by (intros c Hc; apply leb_ordered in Hc; tauto).
  unfold biomeDetermination.
  rewrite Hlt in H1 by (apply Hk; reflexivity).
  rewrite !Hlt by (apply Hk; reflexivity).
  destruct (0.15 <=? biomeNoise) eqn:E1;
  destruct (0.30 <=? biomeNoise) eqn:E2;
  destruct (0.45 <=? biomeNoise) eqn:E3;
  destruct (0.65 <=? biomeNoise) eqn:E4;
  destruct (0.85 <=? biomeNoise) eqn:E5;
  destruct (1 <=? biomeNoise) eqn:E6; try discriminate H1;
  try order_clash biomeNoise;
  simpl in Hin;
  repeat (destruct Hin as [Hin | Hin];
          [injection Hin as <- <- <- |]); try contradiction;
  rewrite ?Hlt by (apply Hk; reflexivity);
  rewrite ?H0, ?E1, ?E2, ?E3, ?E4, ?E5, ?E6; simpl;
  split; try discriminate; try tauto;
  intros [? ?]; discriminate.
Qed.

End BiomeProperties.

Section TileProperties.

Variable Math_sin : float -> float.

(** C10: at every integer coordinate pair, whatever the overlay holds, the
    biome of the tile returned by [getTile] is one of the six labels of
    the [switch] and never the initial ['Unknown']; the [default] branch
    of the [switch] is therefore never taken. *)
Theorem getTile_biome_never_unknown (this : WorldGenerator) (x y : Z) :
  In (biome (getTile Math_sin this x y)) caseLabels /\
  biome (getTile Math_sin this x y) <> "Unknown"%string.
Proof.
  assert (H : In (biome (getTile Math_sin this x y)) caseLabels)
    by apply biomeDetermination_label.
  split; [exact H |].
  intros E. rewrite E in H. unfold caseLabels in H. simpl in H.
  repeat (destruct H as [H | H]; [discriminate H |]). exact H.
Qed.

(** C2: when the biome noise of a tile lies in [0,1), the biome returned
    by [getTile] is one of the six biomes, and it is the biome of a band
    of the table exactly when the noise lies in that band: desert on
    [0,0.15), savanna on [0.15,0.30), grassland on [0.30,0.45),
    rainforest on [0.45,0.65), taiga on [0.65,0.85), tundra on
    [0.85,1). *)
Theorem getTile_biome_bands (this : WorldGenerator) (x y : Z) :
  let biomeNoise :=
    smoothNoise Math_sin (prng this) (Z2number x * 0.005) (Z2number y * 0.005) in
  Spec.inBand 0 1 biomeNoise ->
  In (biome (getTile Math_sin this x y)) (map snd Spec.biomeBands) /\
  forall lo hi name,
    In (lo, hi, name) Spec.biomeBands ->
    (biome (getTile Math_sin this x y) = name <-> Spec.inBand lo hi biomeNoise).
Proof.
  intros biomeNoise Hin. split.
  - apply biomeDetermination_label.
  - apply biomeDetermination_bands. exact Hin.
Qed.

(** *** Terrain determination *)

(** The [switch] computes the table of the specification, for every biome
    name and every elevation (NaN included). *)
Lemma terrainDetermination_table
  (terrain : TileType) (biome : string) (elevation : float) :
  terrainDetermination terrain biome elevation = Spec.terrainOf biome elevation.
Proof.
  unfold terrainDetermination, Spec.terrainOf, Spec.terrainTable.
  cbn [Spec.lookup].
  repeat match goal with
  | |- context [String.eqb biome ?l] => destruct (String.eqb biome l)
  end; reflexivity.
Qed.

Lemma terrainDetermination_default
  (terrain : TileType) (biome : string) (elevation : float) :
  ~ In biome caseLabels -> terrainDetermination terrain biome elevation = GRASS.
Proof.
  intros H. unfold terrainDetermination.
  repeat match goal with
  | |- context [String.eqb biome ?l] =>
      let E := fresh "E" in
      destruct (String.eqb biome l) eqn:E;
      [apply String.eqb_eq in E; exfalso; apply H; subst biome;
       unfold caseLabels; simpl; tauto |]
  end. reflexivity.
Qed.

(** C3: the terrain returned by [getTile] is the terrain the table of the
    specification gives for the tile's biome and elevation: the terrain
    of the first threshold, in ascending order, that the elevation is
    below, else the terrain of the top band.  The [switch] agrees with the
    table for every biome name and every elevation, and gives grass for
    every name that is not one of the six biomes. *)
Theorem getTile_terrain_table (this : WorldGenerator) (x y : Z) :
  let elevation :=
    smoothNoise Math_sin (prng this) (Z2number x * 0.05) (Z2number y * 0.05) in
  terrain (getTile Math_sin this x y) =
    Spec.terrainOf (biome (getTile Math_sin this x y)) elevation /\
  (forall terrain biome e,
     terrainDetermination terrain biome e = Spec.terrainOf biome e) /\
  (forall terrain biome e,
     ~ In biome caseLabels -> terrainDetermination terrain biome e = GRASS).
Proof.
  intros elevation. split; [| split].
  - apply terrainDetermination_table.
  - apply terrainDetermination_table.
  - apply terrainDetermination_default.
Qed.

(** *** Procedural objects *)

Lemma proceduralObjectPlacement_rules
  (biome : string) (terrain : TileType) (objectHash : float) :
  proceduralObjectPlacement None biome terrain objectHash =
  Spec.objectOf biome terrain objectHash.
Proof.
  unfold proceduralObjectPlacement, Spec.objectOf, Spec.objectRules.
  cbn [find Spec.ruleApplies existsb].
  repeat match goal with
  | |- context [String.eqb biome ?l] => destruct (String.eqb biome l)
  end; destruct terrain; reflexivity.
Qed.

(** C4: when no custom sprite is placed at (x, y), the object returned by
    [getTile] is the one the rules of the specification give for the
    tile's biome and terrain at [objectHash = noise(x, y, 1)]: the object
    of the first threshold, in descending order, that the hash exceeds in
    the rule that applies, and no object when no rule applies or no
    threshold is exceeded.  The code agrees with the rules for every
    biome name, terrain and hash. *)
Theorem getTile_object_rules (this : WorldGenerator) (x y : Z) :
  JSMap.get (coordKey x y) (placedObjects this) = None ->
  let objectHash := noise Math_sin (prng this) (Z2number x) (Z2number y) 1 in
  object (getTile Math_sin this x y) =
    Spec.objectOf (biome (getTile Math_sin this x y))
      (terrain (getTile Math_sin this x y)) objectHash /\
  (forall biome terrain hash,
     proceduralObjectPlacement None biome terrain hash =
     Spec.objectOf biome terrain hash).
Proof.
  intros Hnone objectHash. split.
  - unfold getTile. cbn [object biome terrain].
    rewrite JSMapFacts.has_get, Hnone.
    apply proceduralObjectPlacement_rules.
  - apply proceduralObjectPlacement_rules.
Qed.

(** *** The overlay *)

(** Terrain, biome and variant never read the overlay. *)
Lemma getTile_overlay_independent (this that : WorldGenerator) (x y : Z) :
  prng this = prng that ->
  terrain (getTile Math_sin this x y) = terrain (getTile Math_sin that x y) /\
  biome (getTile Math_sin this x y) = biome (getTile Math_sin that x y) /\
  variant (getTile Math_sin this x y) = variant (getTile Math_sin that x y).
Proof.
  intros E. unfold getTile. cbn [terrain biome variant].
  rewrite E. auto.
Qed.

(** The whole tile depends on the overlay only through the entry of its
    own key. *)
Lemma getTile_same_entry (this that : WorldGenerator) (x y : Z) :
  prng this = prng that ->
  JSMap.get (coordKey x y) (placedObjects this) =
  JSMap.get (coordKey x y) (placedObjects that) ->
  getTile Math_sin this x y = getTile Math_sin that x y.
Proof.
  intros E Hget. unfold getTile.
  rewrite !JSMapFacts.has_get, E, Hget. reflexivity.
Qed.

(** C5: after [placeObject(x, y, sprite)], whatever the generator held
    before, [getTile(x, y)] returns [sprite] as custom sprite and no
    procedural object, and its terrain and biome are those computed
    without the placement (and without any placement at all). *)
Theorem placeObject_overlay_precedence
  (this : WorldGenerator) (x y : Z) (sprite : CustomSprite) :
  let tile := getTile Math_sin (placeObject this x y sprite) x y in
  customSprite tile = Some sprite /\
  object tile = None /\
  terrain tile = terrain (getTile Math_sin this x y) /\
  biome tile = biome (getTile Math_sin this x y) /\
  terrain tile = terrain (getTile Math_sin (procedural this) x y) /\
  biome tile = biome (getTile Math_sin (procedural this) x y).
Proof.
  intros tile.
  assert (Hc : customSprite tile = Some sprite).
  { unfold tile, getTile, placeObject.
    cbn [customSprite placedObjects].
    rewrite JSMapFacts.has_get. apply JSMapFacts.get_set_same. }
  assert (Ho : object tile = None).
  { revert Hc. unfold tile, getTile.
    cbn [customSprite object]. rewrite JSMapFacts.has_get.
    intros ->. reflexivity. }
  destruct (getTile_overlay_independent (placeObject this x y sprite) this x y)
    as (Ht & Hb & _); [reflexivity |].
  destruct (getTile_overlay_independent
              (placeObject this x y sprite) (procedural this) x y)
    as (Ht' & Hb' & _); [reflexivity |].
  repeat split; assumption.
Qed.

End TileProperties.

(** ** Calls, determinism and the overlay *)

(** Facts on maps built from entries. *)

Module OverlayFacts.

Import JSMap.

Section WithValues.
Context {V : Type}.
Implicit Types (m : JSMap.t V) (k : string) (v : V).

Lemma set_set k v v' m : set k v' (set k v m) = set k v' m.
Proof.
  induction m as [|[k0 v0] m IH]; simpl.
  - now rewrite String.eqb_refl.
  - destruct (String.eqb k k0) eqn:E; simpl; rewrite E; [reflexivity |].
    now rewrite IH.
Qed.

Lemma length_set_present k v m :
  In k (keys m) -> List.length (set k v m) = List.length m.
Proof.
  induction m as [|[k0 v0] m IH]; simpl; intros H; [contradiction |].
  destruct (String.eqb k k0) eqn:E; simpl; [reflexivity |].
  apply String.eqb_neq in E. f_equal. apply IH.
  destruct H as [H | H]; [congruence | exact H].
Qed.

Lemma get_In k v m : NoDup (keys m) -> (In (k, v) m <-> get k m = Some v).
Proof.
  induction m as [|[k0 v0] m IH]; simpl; intros Hnd.
  - split; [contradiction | discriminate].
  - inversion Hnd as [|? ? Hnotin Hnd']; subst.
    destruct (String.eqb k k0) eqn:E.
    + apply String.eqb_eq in E. subst k0. split.
      * intros [H | H]; [congruence |].
        exfalso. apply Hnotin. unfold keys.
        change k with (fst (k, v)). now apply in_map.
      * intros [= ->]. now left.
    + apply String.eqb_neq in E. rewrite <- IH by assumption. split.
      * intros [H | H]; [congruence | exact H].
      * intros H. now right.
Qed.

Lemma get_build (es : list (string * V)) : forall (acc : JSMap.t V) k,
  get k (build acc es) =
  match lastValue k es with
  | Some v => Some v
  | None => get k acc
  end.
Proof.
  induction es as [|[k0 v0] es IH]; intros acc k; simpl; [reflexivity |].
  unfold build in *. simpl. rewrite IH.
  destruct (lastValue k es) as [v'|]; [reflexivity |].
  destruct (String.eqb k k0) eqn:E.
  - apply String.eqb_eq in E. subst. apply JSMapFacts.get_set_same.
  - apply String.eqb_neq in E. now apply JSMapFacts.get_set_other.
Qed.

End WithValues.

End OverlayFacts.

Section OverlayProperties.

Variable Math_sin : float -> float.

(** No call replaces the noise source. *)
Lemma prng_after (cs : list call) :
  forall this, prng (after Math_sin this cs) = prng this.
Proof.
  induction cs as [|c cs IH]; intros this; simpl; auto.
  unfold after in *. simpl. rewrite IH.
  destruct c; reflexivity.
Qed.

(** A [getTile] call leaves the object as it was. *)
Lemma after_queries (qs : list (Z * Z)) this : after Math_sin this (queries qs) = this.
Proof. induction qs as [|q qs IH]; simpl; auto. Qed.

(** The overlay of an object never holds a key twice. *)
Lemma NoDup_after (cs : list call) : forall this,
  NoDup (JSMap.keys (placedObjects this)) ->
  NoDup (JSMap.keys (placedObjects (after Math_sin this cs))).
Proof.
  induction cs as [|c cs IH]; intros this H; simpl; auto.
  unfold after in *. simpl. apply IH.
  destruct c; simpl; auto.
  - now apply JSMapFacts.NoDup_keys_set.
  - apply JSMapFacts.NoDup_keys_build. constructor.
Qed.

(** C1: two generators constructed independently from the same seed string
    and given no placement return, at every integer coordinate pair, tiles
    with identical terrain, biome, object and variant (indeed identical
    tiles), whatever [getTile] calls were made on either before; so do
    repeated calls on one instance. *)
Theorem getTile_deterministic
  (S : string) (qs1 qs2 : list (Z * Z)) (x y : Z) :
  let g1 := after Math_sin (new_WorldGenerator S) (queries qs1) in
  let g2 := after Math_sin (new_WorldGenerator S) (queries qs2) in
  let t1 := getTile Math_sin g1 x y in
  let t2 := getTile Math_sin g2 x y in
  terrain t1 = terrain t2 /\ biome t1 = biome t2 /\
  object t1 = object t2 /\ variant t1 = variant t2 /\
  t1 = t2 /\
  snd (exec Math_sin g1 (Call_getTile x y)) =
  snd (exec Math_sin (fst (exec Math_sin g1 (Call_getTile x y))) (Call_getTile x y)).
Proof.
  intros g1 g2 t1 t2.
  assert (E : t1 = t2).
  { unfold t1, t2, g1, g2. now rewrite !after_queries. }
  rewrite E. repeat split; reflexivity.
Qed.

(** C6: for a generator constructed from a seed and taken through any
    sequence of calls (any sequence of [placeObject] calls in particular),
    deserializing its serialized overlay into a fresh generator with the
    same seed gives a generator in the same state, whose [getTile] returns
    the same tile at every coordinate pair, placed or not. *)
Theorem serialize_deserialize_roundtrip (S : string) (cs : list call) :
  let original := after Math_sin (new_WorldGenerator S) cs in
  let restored :=
    deserializePlacedObjects (new_WorldGenerator S)
      (serializePlacedObjects original) in
  restored = original /\
  forall x y, getTile Math_sin restored x y = getTile Math_sin original x y.
Proof.
  intros original restored.
  assert (E : restored = original).
  { unfold restored, deserializePlacedObjects, serializePlacedObjects.
    rewrite JSMapFacts.of_entries_entries.
    - assert (Hp : prng original = prng (new_WorldGenerator S))
        by apply prng_after.
      rewrite <- Hp. now destruct original.
    - apply NoDup_after. constructor. }
  split; [exact E |]. intros x y. now rewrite E.
Qed.

Lemma get_of_entries_absent {V} (es : list (string * V)) k :
  ~ In k (map fst es) -> JSMap.get k (JSMap.of_entries es) = None.
Proof.
  intros H. apply JSMapFacts.get_None_keys.
  unfold JSMap.of_entries. rewrite JSMapFacts.keys_build. simpl. tauto.
Qed.

(** C7: [deserializePlacedObjects(entries)] replaces the whole overlay by
    one built from [entries], whatever calls came before: the keys of the
    overlay are those of [entries]; at every coordinate pair [getTile]
    shows the sprite of the last entry with the key of the pair, and no
    sprite when there is none; the generator is the one a fresh generator
    with the same seed becomes when given [entries], so no earlier
    placement is left.  In particular, at a coordinate pair whose key is
    not among the keys of [entries], placed before or not, [getTile]
    returns the purely procedural tile, the one of a generator with the
    same seed and no placement: no custom sprite, and the procedural
    object. *)
Theorem deserialize_replaces_overlay
  (S : string) (cs : list call) (entries : list (string * CustomSprite)) :
  let restored :=
    deserializePlacedObjects (after Math_sin (new_WorldGenerator S) cs) entries in
  (forall k,
     In k (map fst (serializePlacedObjects restored)) <->
     In k (map fst entries)) /\
  (forall x y,
     customSprite (getTile Math_sin restored x y) =
     lastValue (coordKey x y) entries) /\
  restored = deserializePlacedObjects (new_WorldGenerator S) entries /\
  (forall x y,
     ~ In (coordKey x y) (map fst entries) ->
     let tile := getTile Math_sin restored x y in
     tile = getTile Math_sin (new_WorldGenerator S) x y /\
     customSprite tile = None /\
     object tile =
       proceduralObjectPlacement None (biome tile) (terrain tile)
         (noise Math_sin (prng restored) (Z2number x) (Z2number y) 1)).
Proof.
  intros restored.
  assert (Hkeys : forall k,
            In k (map fst (serializePlacedObjects restored)) <->
            In k (map fst entries)).
  { intros k. unfold restored, serializePlacedObjects, deserializePlacedObjects.
    cbn [placedObjects]. unfold JSMap.entries, JSMap.of_entries.
    change (map fst (JSMap.build JSMap.empty entries))
      with (JSMap.keys (JSMap.build JSMap.empty entries)).
    rewrite JSMapFacts.keys_build. simpl. tauto. }
  assert (Hshown : forall x y,
            customSprite (getTile Math_sin restored x y) =
            lastValue (coordKey x y) entries).
  { intros x y. unfold restored, getTile, deserializePlacedObjects.
    cbn [customSprite placedObjects].
    rewrite JSMapFacts.has_get. unfold JSMap.of_entries.
    rewrite OverlayFacts.get_build.
    now destruct (lastValue (coordKey x y) entries). }
  assert (Hfresh : restored =
                   deserializePlacedObjects (new_WorldGenerator S) entries).
  { unfold restored, deserializePlacedObjects. now rewrite prng_after. }
  split; [exact Hkeys |]. split; [exact Hshown |]. split; [exact Hfresh |].
  intros x y Habs tile.
  assert (Hget : JSMap.get (coordKey x y) (placedObjects restored) = None)
    by (apply get_of_entries_absent; exact Habs).
  assert (E : tile = getTile Math_sin (new_WorldGenerator S) x y).
  { apply getTile_same_entry.
    - unfold restored. simpl. apply prng_after.
    - rewrite Hget. reflexivity. }
  split; [exact E |].
  unfold tile, getTile. cbn [customSprite object biome terrain].
  rewrite JSMapFacts.has_get, Hget. split; reflexivity.
Qed.

(** C9 (as the code has it): [deserializePlacedObjects] validates nothing
    and cannot fail.  Every key of the given entries, decodable to two
    integers or not, is a key of the overlay and of what
    [serializePlacedObjects] returns, and no other key is; entries whose
    key does not decode to two integers change no [getTile] result at
    coordinates that are safe integers: the tiles there are those obtained
    from the well-formed entries alone. *)
Theorem deserialize_keeps_every_entry
  (this : WorldGenerator) (entries : list (string * CustomSprite)) :
  (forall k,
     In k (map fst (serializePlacedObjects
                      (deserializePlacedObjects this entries))) <->
     In k (map fst entries)) /\
  (forall x y,
     Number_isSafeInteger x -> Number_isSafeInteger y ->
     getTile Math_sin (deserializePlacedObjects this entries) x y =
     getTile Math_sin (deserializePlacedObjects this
                (filter wellFormedEntry entries)) x y).
Proof.
  split.
  - intros k. unfold serializePlacedObjects, deserializePlacedObjects.
    simpl. unfold JSMap.entries, JSMap.of_entries.
    change (map fst (JSMap.build JSMap.empty entries))
      with (JSMap.keys (JSMap.build JSMap.empty entries)).
    rewrite JSMapFacts.keys_build. simpl. tauto.
  - intros x y _ _. apply getTile_same_entry; [reflexivity |].
    unfold deserializePlacedObjects. simpl. unfold JSMap.of_entries.
    apply (JSMapFacts.get_build_filter wellFormedKey).
    + apply KeyFacts.wellFormedKey_coordKey.
    + reflexivity.
Qed.

End OverlayProperties.

(** ** The statements at concrete inputs *)

(** With the sample sine, seed ["test-seed"] and tile (0, 0): the biome
    noise lies in [0,1), in the last band, and the biome is the tundra. *)
Lemma getTile_biome_bands_witness :
  Spec.inBand 0 1
    (smoothNoise sample_sin (prng (new_WorldGenerator "test-seed"))
       (Z2number 0 * 0.005) (Z2number 0 * 0.005)) /\
  biome (getTile sample_sin (new_WorldGenerator "test-seed") 0 0)
  = "TUNDRA"%string.
Proof.
  assert (H : Spec.inBand 0 1
                (smoothNoise sample_sin (prng (new_WorldGenerator "test-seed"))
                   (Z2number 0 * 0.005) (Z2number 0 * 0.005)))
    by (split; vm_compute; reflexivity).
  split; [exact H |].
  destruct (getTile_biome_bands sample_sin (new_WorldGenerator "test-seed") 0 0 H)
    as [_ Hband].
  apply (Hband 0.85 1 "TUNDRA"%string).
  - simpl. tauto.
  - split; vm_compute; reflexivity.
Defined.

(** A rainforest tile of forest that carries a tree. *)
Lemma getTile_object_rules_witness :
  JSMap.get (coordKey 481 883) (placedObjects (new_WorldGenerator "test-seed"))
  = None /\
  object (getTile sample_sin (new_WorldGenerator "test-seed") 481 883)
  = Spec.objectOf
      (biome (getTile sample_sin (new_WorldGenerator "test-seed") 481 883))
      (terrain (getTile sample_sin (new_WorldGenerator "test-seed") 481 883))
      (noise sample_sin (prng (new_WorldGenerator "test-seed"))
         (Z2number 481) (Z2number 883) 1).
Proof.
  split; [reflexivity |].
  apply (getTile_object_rules sample_sin (new_WorldGenerator "test-seed") 481 883).
  reflexivity.
Defined.

(** A sprite placed at (5, 5) is gone after deserializing entries that hold
    (5, 6) only. *)
Lemma deserialize_replaces_overlay_witness :
  ~ In (coordKey 5 5) (map fst [("5,6"%string, sampleSprite)]) /\
  getTile sample_sin
    (deserializePlacedObjects
       (after sample_sin (new_WorldGenerator "test-seed")
          (placements [(5%Z, 5%Z, sampleSprite)]))
       [("5,6"%string, sampleSprite)]) 5 5
  = getTile sample_sin (new_WorldGenerator "test-seed") 5 5.
Proof.
  assert (H : ~ In (coordKey 5 5) (map fst [("5,6"%string, sampleSprite)]))
    by (simpl; intros [H | []]; discriminate H).
  split; [exact H |].
  apply (deserialize_replaces_overlay sample_sin "test-seed"
           (placements [(5%Z, 5%Z, sampleSprite)])
           [("5,6"%string, sampleSprite)]).
  exact H.
Defined.

(** The noise of layer 1 at (3, 4) for seed ["test-seed"]: [n] is finite
    and below [-2^-54], and the noise lies in [0,1). *)
Lemma noise_fractional_part_witness :
  isFinite
    (sample_sin (3 * 12.9898 + 4 * 78.233
                 + Z2number (seed (new_PRNG "test-seed")) + 1 * 131.2)
     * 43758.5453) = true /\
  (0 <=? noise sample_sin (new_PRNG "test-seed") 3 4 1) = true /\
  (noise sample_sin (new_PRNG "test-seed") 3 4 1 <? 1) = true.
Proof.
  split; [vm_compute; reflexivity |].
  destruct (noise_fractional_part sample_sin (new_PRNG "test-seed") 3 4 1)
    as (_ & Hfinite).
  destruct Hfinite as (H0 & _ & Hstrict & _); [vm_compute; reflexivity |].
  split; [exact H0 |].
  apply Hstrict. intros [H _]. vm_compute in H. discriminate H.
Defined.

(** C8, as stated, fails: with the seed that hashes to 0, at
    [x = -1e-25], [y = 0] and layer 0 the argument of the sine is about
    [-1.3e-24]; for every sine that returns so small an argument unchanged
    (the correctly rounded value) [n] is a tiny negative number and the
    noise is 1, not below 1. *)
Lemma noise_not_below_one :
  ~ (forall Math_sin : float -> float,
       Math_sin (-1.2989800000000001e-24) = (-1.2989800000000001e-24) ->
       forall (this : PRNG) (x y layer : float),
         isFinite x = true -> isFinite y = true -> isFinite layer = true ->
         (0 <=? noise Math_sin this x y layer) = true /\
         (noise Math_sin this x y layer <? 1) = true).
Proof.
  intros H.
  assert (Hsin : sample_sin (-1.2989800000000001e-24)
                 = (-1.2989800000000001e-24)) by (vm_compute; reflexivity).
  destruct (H sample_sin Hsin (new_PRNG "s9l0cue") (-1e-25) 0 0) as [_ H1];
    try (vm_compute; reflexivity).
  rewrite (noise_reaches_one sample_sin Hsin) in H1.
  vm_compute in H1. discriminate H1.
Qed.

(** Outside the finite [n]: at [x = 1e308] the product [x * 12.9898]
    overflows, the argument of the sine is infinite, the sine is NaN there
    and so is the noise, for every sine that is NaN at infinity.  The
    source comment on [noise] says "Returns 0-1". *)
Lemma noise_outside_unit_interval :
  ~ (forall Math_sin : float -> float,
       Math_sin infinity = nan ->
       forall (this : PRNG) (x y layer : float),
         isFinite x = true -> isFinite y = true -> isFinite layer = true ->
         (0 <=? noise Math_sin this x y layer) = true /\
         (noise Math_sin this x y layer <? 1) = true).
Proof.
  intros H.
  assert (Hsin : sample_sin infinity = nan) by (vm_compute; reflexivity).
  destruct (H sample_sin Hsin (new_PRNG "test-seed") 1e308 0 0) as [H0 _];
    try (vm_compute; reflexivity).
  vm_compute in H0. discriminate H0.
Qed.

(** C9, as stated, fails: an entry whose key does not decode to two
    integers is kept and comes back from [serializePlacedObjects]. *)
Lemma deserialize_retains_malformed_entry :
  ~ (forall e,
       In e (serializePlacedObjects
               (deserializePlacedObjects (new_WorldGenerator "test-seed")
                  [("garbage"%string, sampleSprite)])) ->
       wellFormedEntry e = true).
Proof.
  intros H.
  specialize (H ("garbage"%string, sampleSprite) (or_introl eq_refl)).
  discriminate H.
Qed.

(* ================================================================== *)
(** * Further properties of the generator *)

(** ** The seed hash *)

Module HashFacts.

Local Open Scope Z_scope.

Lemma ToInt32_int32 z : int32 (ToInt32 z).
Proof.
  unfold int32, ToInt32.
  pose proof (Z.mod_pos_bound (z + 2 ^ 31) (2 ^ 32) ltac:(lia)). lia.
Qed.

Lemma ToInt32_id z : int32 z -> ToInt32 z = z.
Proof.
  unfold int32, ToInt32. intros H.
  rewrite Z.mod_small by lia. lia.
Qed.

Lemma ToInt32_mod z : ToInt32 z mod 2 ^ 32 = z mod 2 ^ 32.
Proof.
  unfold ToInt32.
  rewrite Zminus_mod, Z.mod_mod by lia.
  rewrite <- Zminus_mod. f_equal. lia.
Qed.

Lemma int32_shiftr z : int32 z <-> (Z.shiftr z 31 = 0 \/ Z.shiftr z 31 = -1).
Proof.
  unfold int32. rewrite Z.shiftr_div_pow2 by lia.
  pose proof (Z.div_mod z (2 ^ 31) ltac:(lia)) as Hdm.
  pose proof (Z.mod_pos_bound z (2 ^ 31) ltac:(lia)) as Hm.
  split; intros H; lia.
Qed.

(** [^] on two int32 values gives an int32 value. *)
Lemma lxor_int32 a b : int32 a -> int32 b -> int32 (Z.lxor a b).
Proof.
  rewrite !int32_shiftr, Z.shiftr_lxor.
  intros [-> | ->] [-> | ->]; simpl; auto.
Qed.

Lemma charCodeAt_range c : 0 <= charCodeAt c < 256.
Proof.
  unfold charCodeAt. pose proof (N_ascii_bounded c) as H. lia.
Qed.

Lemma charCodeAt_int32 c : int32 (charCodeAt c).
Proof. pose proof (charCodeAt_range c). unfold int32. lia. Qed.

Lemma hashLoop_int32 str : forall h, int32 h -> int32 (hashLoop str h).
Proof.
  induction str as [|c rest IH]; simpl; intros h Hh; auto.
  apply IH. apply lxor_int32; apply ToInt32_int32.
Qed.

Lemma hashTrace_int32 str : forall h, int32 h -> Forall int32 (hashTrace str h).
Proof.
  induction str as [|c rest IH]; simpl; intros h Hh; constructor; auto.
  apply IH. apply lxor_int32; apply ToInt32_int32.
Qed.

Lemma mod_pow2_testbit a n i :
  0 <= n -> Z.testbit (a mod 2 ^ n) i = (i <? n) && Z.testbit a i.
Proof.
  intros Hn. destruct (Z.ltb_spec i n) as [Hlt | Hge]; simpl.
  - destruct (Z.le_gt_cases 0 i).
    + now apply Z.mod_pow2_bits_low.
    + now rewrite !Z.testbit_neg_r by lia.
  - apply Z.mod_pow2_bits_high. lia.
Qed.

(** The low 32 bits of [a ^ b] are those of the low 32 bits of [a] and
    [b]. *)
Lemma lxor_mod a b a' b' :
  a mod 2 ^ 32 = a' mod 2 ^ 32 -> b mod 2 ^ 32 = b' mod 2 ^ 32 ->
  Z.lxor a b mod 2 ^ 32 = Z.lxor a' b' mod 2 ^ 32.
Proof.
  intros Ha Hb. apply Z.bits_inj'. intros i Hi.
  rewrite !mod_pow2_testbit, !Z.lxor_spec by lia.
  destruct (Z.ltb_spec i 32) as [Hlt | Hge]; simpl; auto.
  assert (Ea : Z.testbit a i = Z.testbit a' i).
  { rewrite <- (Z.mod_pow2_bits_low a 32 i), <- (Z.mod_pow2_bits_low a' 32 i)
      by lia. now rewrite Ha. }
  assert (Eb : Z.testbit b i = Z.testbit b' i).
  { rewrite <- (Z.mod_pow2_bits_low b 32 i), <- (Z.mod_pow2_bits_low b' 32 i)
      by lia. now rewrite Hb. }
  now rewrite Ea, Eb.
Qed.

Lemma hashLoop_djb2 str : forall h h',
  h mod 2 ^ 32 = h' mod 2 ^ 32 ->
  hashLoop str h mod 2 ^ 32 = djb2 str h' mod 2 ^ 32.
Proof.
  induction str as [|c rest IH]; cbn [hashLoop djb2]; intros h h' E; auto.
  apply IH. apply lxor_mod.
  - rewrite ToInt32_mod.
    rewrite (Z.mul_mod h), (Z.mul_mod h'), E by lia. reflexivity.
  - now rewrite ToInt32_mod.
Qed.

End HashFacts.

(** X1: the seed hash is an unsigned 32-bit integer, and it is the hash of
    the specification: [hash * 33 XOR charCode] accumulated from 5381 on
    unbounded integers, reduced modulo 2^32 at the end.  The conversions to
    int32 inside the loop lose nothing of it. *)
Theorem hashString_djb2 (str : string) :
  (0 <= hashString str < 2 ^ 32)%Z /\
  hashString str = (djb2 str 5381 mod 2 ^ 32)%Z.
Proof.
  unfold hashString, ToUint32. split.
  - apply Z.mod_pos_bound. lia.
  - now apply HashFacts.hashLoop_djb2.
Qed.

(** X2: on entry to every iteration of the loop of [hashString] the value
    of [hash] is an int32 (5381 at first), so the product [hash * 33] is
    below 2^53 in magnitude: the multiplication of doubles is exact, and
    the loop computes on integers whatever the length of the seed. *)
Theorem hashString_products_exact (str : string) :
  Forall (fun hash => (- 2 ^ 53 < hash * 33 < 2 ^ 53)%Z)
    (hashTrace str 5381).
Proof.
  assert (H : Forall int32 (hashTrace str 5381))
    by (apply HashFacts.hashTrace_int32; unfold int32; lia).
  eapply Forall_impl; [| exact H].
  unfold int32. intros h Hh. lia.
Qed.

(** ** What tiles never hold *)

Section TileInvariants.

Variable Math_sin : float -> float.

Lemma proceduralObjectPlacement_sites
  (biome : string) (terrain : TileType) (objectHash : float) :
  let object := proceduralObjectPlacement None biome terrain objectHash in
  object <> Some NONE /\
  (object = Some TREE_OAK ->
     (biome = "RAINFOREST"%string /\ terrain = FOREST) \/
     (biome = "GRASSLAND"%string /\ terrain = GRASS) \/
     (biome = "TAIGA"%string /\ terrain = FOREST)) /\
  (object = Some FLOWER_RED -> biome = "RAINFOREST"%string /\ terrain = FOREST) /\
  (object = Some FLOWER_BLUE -> biome = "GRASSLAND"%string /\ terrain = GRASS) /\
  (object = Some HOUSE_SMALL -> biome = "GRASSLAND"%string /\ terrain = GRASS) /\
  (object = Some ROCK_SMALL ->
     (terrain = SAND /\ (biome = "DESERT"%string \/ biome = "SAVANNA"%string)) \/
     terrain = STONE \/ terrain = MOUNTAIN) /\
  (terrain = DEEP_WATER \/ terrain = WATER \/ terrain = DIRT \/ terrain = SNOW ->
   object = None).
Proof.
  unfold proceduralObjectPlacement.
  destruct (String.eqb biome "RAINFOREST") eqn:E1;
  destruct (String.eqb biome "GRASSLAND") eqn:E2;
  destruct (String.eqb biome "DESERT") eqn:E3;
  destruct (String.eqb biome "SAVANNA") eqn:E4;
  destruct (String.eqb biome "TAIGA") eqn:E5;
  rewrite ?String.eqb_eq in *;
  destruct terrain; cbn [TileType_eqb andb orb];
  repeat match goal with
  | |- context [if ?c <? ?h then _ else _] => destruct (c <? h)
  end;
  cbv zeta;
  repeat split; try discriminate; intros; try discriminate;
  try reflexivity;
  repeat match goal with
  | H : _ \/ _ |- _ => destruct H; try discriminate
  end;
  auto 6.
Qed.

(** X3: whatever the overlay holds, the object of a tile is never
    [ObjectType.NONE], and procedural objects stand only where the rules
    put them: a tree on rainforest or taiga forest or on grassland grass, a
    red flower on rainforest forest, a blue flower or a small house on
    grassland grass, a rock on desert or savanna sand, on stone or on
    mountain.  A tile of water, deep water, dirt or snow carries no
    procedural object. *)
Theorem getTile_object_sites (this : WorldGenerator) (x y : Z) :
  let tile := getTile Math_sin this x y in
  object tile <> Some NONE /\
  (object tile = Some TREE_OAK ->
     (biome tile = "RAINFOREST"%string /\ terrain tile = FOREST) \/
     (biome tile = "GRASSLAND"%string /\ terrain tile = GRASS) \/
     (biome tile = "TAIGA"%string /\ terrain tile = FOREST)) /\
  (object tile = Some FLOWER_RED ->
     biome tile = "RAINFOREST"%string /\ terrain tile = FOREST) /\
  (object tile = Some FLOWER_BLUE ->
     biome tile = "GRASSLAND"%string /\ terrain tile = GRASS) /\
  (object tile = Some HOUSE_SMALL ->
     biome tile = "GRASSLAND"%string /\ terrain tile = GRASS) /\
  (object tile = Some ROCK_SMALL ->
     (terrain tile = SAND /\
      (biome tile = "DESERT"%string \/ biome tile = "SAVANNA"%string)) \/
     terrain tile = STONE \/ terrain tile = MOUNTAIN) /\
  (terrain tile = DEEP_WATER \/ terrain tile = WATER \/
   terrain tile = DIRT \/ terrain tile = SNOW ->
   object tile = None).
Proof.
  intros tile. unfold tile, getTile. cbn [object biome terrain].
  rewrite JSMapFacts.has_get.
  destruct (JSMap.get (coordKey x y) (placedObjects this)) as [sprite|].
  - repeat split; intros; try discriminate; reflexivity.
  - apply proceduralObjectPlacement_sites.
Qed.

Lemma terrainDetermination_sites (terrain0 : TileType) (biome : string)
  (elevation : float) :
  In biome caseLabels ->
  let terrain := terrainDetermination terrain0 biome elevation in
  (terrain = STONE -> biome = "DESERT"%string) /\
  (terrain = MOUNTAIN -> biome = "TUNDRA"%string) /\
  (terrain = SNOW -> biome = "TAIGA"%string \/ biome = "TUNDRA"%string) /\
  (terrain = DEEP_WATER ->
     biome = "RAINFOREST"%string \/ biome = "TUNDRA"%string) /\
  (terrain = FOREST -> biome = "RAINFOREST"%string \/ biome = "TAIGA"%string) /\
  (terrain = DIRT ->
     biome = "GRASSLAND"%string \/ biome = "TAIGA"%string \/
     biome = "TUNDRA"%string) /\
  (terrain = SAND ->
     biome = "DESERT"%string \/ biome = "SAVANNA"%string \/
     biome = "GRASSLAND"%string \/ biome = "RAINFOREST"%string) /\
  (terrain = GRASS ->
     biome = "SAVANNA"%string \/ biome = "GRASSLAND"%string \/
     biome = "RAINFOREST"%string).
Proof.
  unfold caseLabels. intros Hin. simpl in Hin.
  repeat (destruct Hin as [<- | Hin]); try contradiction;
    unfold terrainDetermination; cbn [String.eqb Ascii.eqb Bool.eqb];
    repeat match goal with
    | |- context [if ?e <? ?c then _ else _] => destruct (e <? c)
    end;
    cbv zeta; repeat split; intros; try discriminate; auto 6.
Qed.

(** X4: whatever the coordinates and the overlay, stone is found only in
    the desert and mountain only in the tundra; snow only in taiga and
    tundra, deep water only in rainforest and tundra, forest only in
    rainforest and taiga, dirt only in grassland, taiga and tundra; the
    tundra and the taiga have no sand and no grass, the desert no grass. *)
Theorem getTile_terrain_sites (this : WorldGenerator) (x y : Z) :
  let tile := getTile Math_sin this x y in
  (terrain tile = STONE -> biome tile = "DESERT"%string) /\
  (terrain tile = MOUNTAIN -> biome tile = "TUNDRA"%string) /\
  (terrain tile = SNOW ->
     biome tile = "TAIGA"%string \/ biome tile = "TUNDRA"%string) /\
  (terrain tile = DEEP_WATER ->
     biome tile = "RAINFOREST"%string \/ biome tile = "TUNDRA"%string) /\
  (terrain tile = FOREST ->
     biome tile = "RAINFOREST"%string \/ biome tile = "TAIGA"%string) /\
  (terrain tile = DIRT ->
     biome tile = "GRASSLAND"%string \/ biome tile = "TAIGA"%string \/
     biome tile = "TUNDRA"%string) /\
  (terrain tile = SAND ->
     biome tile = "DESERT"%string \/ biome tile = "SAVANNA"%string \/
     biome tile = "GRASSLAND"%string \/ biome tile = "RAINFOREST"%string) /\
  (terrain tile = GRASS ->
     biome tile = "SAVANNA"%string \/ biome tile = "GRASSLAND"%string \/
     biome tile = "RAINFOREST"%string).
Proof.
  intros tile. unfold tile, getTile. cbn [biome terrain].
  apply terrainDetermination_sites. apply biomeDetermination_label.
Qed.

End TileInvariants.

(** ** More on the overlay *)

Section OverlayMore.

Variable Math_sin : float -> float.

(** X5: the template key is shared by no two coordinate pairs, negative
    coordinates included: two pairs have the same key exactly when they are
    the same pair. *)
Theorem coordKey_injective (x y x' y' : Z) :
  coordKey x y = coordKey x' y' <-> x = x' /\ y = y'.
Proof.
  split.
  - apply KeyFacts.coordKey_inj.
  - intros [-> ->]. reflexivity.
Qed.

(** X6: [placeObject(x, y, sprite)] changes the tile at (x, y) only: at
    every other coordinate pair [getTile] returns what it returned
    before. *)
Theorem placeObject_elsewhere
  (this : WorldGenerator) (x y : Z) (sprite : CustomSprite) (x' y' : Z) :
  (x', y') <> (x, y) ->
  getTile Math_sin (placeObject this x y sprite) x' y' =
  getTile Math_sin this x' y'.
Proof.
  intros Hne. apply getTile_same_entry; [reflexivity |].
  unfold placeObject. cbn [placedObjects].
  apply JSMapFacts.get_set_other.
  intros E. apply KeyFacts.coordKey_inj in E. destruct E. congruence.
Qed.

(** X7: the last write wins and leaves one entry: placing a second sprite
    at a coordinate pair gives the generator that placing it alone gives,
    with as many overlay entries as after the first placement. *)
Theorem placeObject_overwrites
  (this : WorldGenerator) (x y : Z) (first second : CustomSprite) :
  placeObject (placeObject this x y first) x y second =
  placeObject this x y second /\
  List.length (serializePlacedObjects
                 (placeObject (placeObject this x y first) x y second)) =
  List.length (serializePlacedObjects (placeObject this x y first)).
Proof.
  unfold placeObject, serializePlacedObjects, JSMap.entries.
  cbn [prng placedObjects]. split.
  - now rewrite OverlayFacts.set_set.
  - apply OverlayFacts.length_set_present.
    apply JSMapFacts.keys_set. now left.
Qed.

(** X8: for a generator constructed from a seed and taken through any
    sequence of calls, the serialized overlay holds no key twice, and it
    holds the entry [(key of (x, y), sprite)] exactly when [getTile(x, y)]
    shows [sprite] as custom sprite. *)
Theorem serializePlacedObjects_tiles (S : string) (cs : list call) :
  let this := after Math_sin (new_WorldGenerator S) cs in
  NoDup (map fst (serializePlacedObjects this)) /\
  forall x y sprite,
    In (coordKey x y, sprite) (serializePlacedObjects this) <->
    customSprite (getTile Math_sin this x y) = Some sprite.
Proof.
  intros this.
  assert (Hnd : NoDup (JSMap.keys (placedObjects this)))
    by (apply NoDup_after; constructor).
  split; [exact Hnd |].
  intros x y sprite. unfold getTile. cbn [customSprite].
  rewrite JSMapFacts.has_get.
  now apply OverlayFacts.get_In.
Qed.

Lemma keys_after_placements (ps : list (Z * Z * CustomSprite)) :
  forall this k,
    In k (JSMap.keys (placedObjects (after Math_sin this (placements ps)))) <->
    In k (JSMap.keys (placedObjects this)) \/
    exists p, In p ps /\ k = coordKey (fst (fst p)) (snd (fst p)).
Proof.
  induction ps as [|p ps IH]; intros this k; simpl.
  - split; [auto | intros [H | (p & [] & _)]; exact H].
  - unfold after in *. simpl. rewrite IH.
    unfold placeObject at 1. cbn [placedObjects].
    rewrite JSMapFacts.keys_set. split.
    + intros [[-> | H] | (q & Hq & ->)].
      * right. exists p. auto.
      * now left.
      * right. exists q. auto.
    + intros [H | (q & [<- | Hq] & ->)].
      * left. now right.
      * left. now left.
      * right. exists q. auto.
Qed.

(** X9: after any sequence of [placeObject] calls on a fresh generator,
    the keys of the serialized overlay are exactly the keys of the
    coordinate pairs placed; when the coordinates placed are safe integers,
    every one of the keys decodes to two integers. *)
Theorem serializePlacedObjects_placements
  (S : string) (ps : list (Z * Z * CustomSprite)) :
  let this := after Math_sin (new_WorldGenerator S) (placements ps) in
  (forall k,
     In k (map fst (serializePlacedObjects this)) <->
     exists p, In p ps /\ k = coordKey (fst (fst p)) (snd (fst p))) /\
  (Forall (fun p => Number_isSafeInteger (fst (fst p)) /\
                    Number_isSafeInteger (snd (fst p))) ps ->
   forallb wellFormedEntry (serializePlacedObjects this) = true).
Proof.
  intros this.
  assert (Hkeys : forall k,
            In k (map fst (serializePlacedObjects this)) <->
            exists p, In p ps /\ k = coordKey (fst (fst p)) (snd (fst p))).
  { intros k. unfold this, serializePlacedObjects, JSMap.entries.
    change (map fst ?m) with (JSMap.keys m).
    rewrite keys_after_placements. simpl. tauto. }
  split; [exact Hkeys |]. intros _.
  apply forallb_forall. intros [k v] Hin.
  unfold wellFormedEntry. cbn [fst].
  destruct (proj1 (Hkeys k)) as (p & _ & ->).
  - change k with (fst (k, v)). now apply in_map.
  - apply KeyFacts.wellFormedKey_coordKey.
Qed.

(** X10: when [deserializePlacedObjects] is given several entries with the
    same key the last one wins: the custom sprite [getTile(x, y)] shows is
    the sprite of the last entry whose key is the key of (x, y), and there
    is none when no entry has that key. *)
Theorem deserializePlacedObjects_last_entry
  (this : WorldGenerator) (entries : list (string * CustomSprite)) (x y : Z) :
  customSprite (getTile Math_sin (deserializePlacedObjects this entries) x y)
  = lastValue (coordKey x y) entries.
Proof.
  unfold getTile, deserializePlacedObjects. cbn [customSprite placedObjects].
  rewrite JSMapFacts.has_get. unfold JSMap.of_entries.
  rewrite OverlayFacts.get_build.
  now destruct (lastValue (coordKey x y) entries).
Qed.

(** X11: entries whose keys are pairwise distinct come back unchanged and
    in order: [serializePlacedObjects] after [deserializePlacedObjects]
    returns the list it was given. *)
Theorem deserialize_serialize_roundtrip
  (this : WorldGenerator) (entries : list (string * CustomSprite)) :
  NoDup (map fst entries) ->
  serializePlacedObjects (deserializePlacedObjects this entries) = entries.
Proof.
  intros Hnd.
  unfold serializePlacedObjects, deserializePlacedObjects, JSMap.entries.
  cbn [placedObjects]. unfold JSMap.of_entries.
  now rewrite JSMapFacts.build_fresh.
Qed.

End OverlayMore.

(** * The sprite library *)

Module StorageFacts.

Import Storage.

Section Library.

Variable sprite : CustomSprite.

Let same (s : CustomSprite) : bool :=
  String.eqb (Sprite.id s) (Sprite.id sprite).

Let other (s : CustomSprite) : bool := negb (same s).

Lemma findIndex_None (arr : list CustomSprite) :
  findIndex same arr = None ->
  ~ In (Sprite.id sprite) (map Sprite.id arr) /\
  find same arr = None /\
  filter other arr = arr.
Proof.
  induction arr as [|a arr IH]; simpl; [tauto |].
  unfold other. destruct (same a) eqn:E; [discriminate |].
  destruct (findIndex same arr); [discriminate |].
  intros _. destruct (IH eq_refl) as (Hin & Hfind & Hfilter).
  simpl. repeat split.
  - intros [H | H]; [| tauto].
    unfold same in E. rewrite H, String.eqb_refl in E. discriminate.
  - exact Hfind.
  - f_equal. exact Hfilter.
Qed.

Lemma findIndex_Some (arr : list CustomSprite) : forall index,
  findIndex same arr = Some index ->
  In (Sprite.id sprite) (map Sprite.id arr) /\
  map Sprite.id (assign arr index sprite) = map Sprite.id arr /\
  find same (assign arr index sprite) = Some sprite /\
  filter other (assign arr index sprite) = filter other arr.
Proof.
  assert (Hs : same sprite = true) by (unfold same; apply String.eqb_refl).
  induction arr as [|a arr IH]; simpl; intros index; [discriminate |].
  unfold other. destruct (same a) eqn:E.
  - intros [= <-]. simpl. rewrite Hs. simpl.
    apply String.eqb_eq in E. repeat split; auto. now rewrite E.
  - destruct (findIndex same arr) as [i|]; [| discriminate].
    intros [= <-]. destruct (IH i eq_refl) as (Hin & Hids & Hfind & Hfilter).
    simpl. rewrite E. simpl. repeat split.
    + now right.
    + now rewrite Hids.
    + exact Hfind.
    + f_equal. exact Hfilter.
Qed.

Lemma existsb_ids (l : list string) :
  existsb (String.eqb (Sprite.id sprite)) l = true <-> In (Sprite.id sprite) l.
Proof.
  rewrite existsb_exists. split.
  - intros (k & Hin & E). apply String.eqb_eq in E. now subst.
  - intros H. exists (Sprite.id sprite). split; [exact H | apply String.eqb_refl].
Qed.

Lemma find_app_last (arr : list CustomSprite) :
  find same arr = None -> find same (arr ++ [sprite]) = Some sprite.
Proof.
  induction arr as [|a arr IH]; simpl.
  - intros _. unfold same. now rewrite String.eqb_refl.
  - destruct (same a); [discriminate | exact IH].
Qed.

Lemma filter_app_last (arr : list CustomSprite) :
  filter other (arr ++ [sprite]) = filter other arr.
Proof.
  rewrite filter_app. simpl. unfold other, same.
  rewrite String.eqb_refl. simpl. apply app_nil_r.
Qed.

Lemma saveSprite_cases (st : store) :
  let after := saveSprite st sprite in
  find same (getSprites after) = Some sprite /\
  ids after =
    (if existsb (String.eqb (Sprite.id sprite)) (ids st)
     then ids st else ids st ++ [Sprite.id sprite]) /\
  filter other (getSprites after) = filter other (getSprites st).
Proof.
  intros after. unfold after, saveSprite, ids.
  fold same.
  destruct (findIndex same (getSprites st)) as [index|] eqn:E; cbn [getSprites].
  - destruct (findIndex_Some _ _ E) as (Hin & Hids & Hfind & Hfilter).
    apply existsb_ids in Hin. rewrite Hin. auto.
  - destruct (findIndex_None _ E) as (Hin & Hfind & Hfilter).
    destruct (existsb (String.eqb (Sprite.id sprite))
                (map Sprite.id (getSprites st))) eqn:Ex.
    + apply existsb_ids in Ex. contradiction.
    + repeat split.
      * now apply find_app_last.
      * now rewrite map_app.
      * apply filter_app_last.
Qed.

End Library.

Lemma ids_filter (keep : string -> bool) (arr : list CustomSprite) :
  map Sprite.id (filter (fun s => keep (Sprite.id s)) arr) =
  filter keep (map Sprite.id arr).
Proof.
  induction arr as [|a arr IH]; simpl; [reflexivity |].
  destruct (keep (Sprite.id a)); simpl; now rewrite IH.
Qed.

Lemma NoDup_filter (keep : string -> bool) (l : list string) :
  NoDup l -> NoDup (filter keep l).
Proof.
  induction 1 as [|a l Hin Hnd IH]; simpl; [constructor |].
  destruct (keep a); [| exact IH].
  constructor; [| exact IH].
  rewrite filter_In. tauto.
Qed.

Lemma NoDup_saveSprite (st : store) (sprite : CustomSprite) :
  NoDup (ids st) -> NoDup (ids (saveSprite st sprite)).
Proof.
  intros Hnd. destruct (saveSprite_cases sprite st) as (_ & -> & _).
  destruct (existsb (String.eqb (Sprite.id sprite)) (ids st)) eqn:E;
    [exact Hnd |].
  apply NoDup_app; [exact Hnd | repeat constructor; intros [] |].
  intros k Hk [<- | []].
  apply existsb_ids in Hk. congruence.
Qed.

Lemma NoDup_deleteSprite (st : store) (id : string) :
  NoDup (ids st) -> NoDup (ids (deleteSprite st id)).
Proof.
  intros Hnd. unfold deleteSprite, ids. cbn [getSprites].
  rewrite (ids_filter (fun k => negb (String.eqb k id))).
  now apply NoDup_filter.
Qed.

Lemma filter_all (A : Type) (p : A -> bool) (l : list A) :
  filter p l = l <-> forall a, In a l -> p a = true.
Proof.
  induction l as [|a l IH]; simpl; [tauto |].
  destruct (p a) eqn:E.
  - split.
    + intros [= H] b [<- | Hb]; [exact E | now apply IH].
    + intros H. f_equal. apply IH. auto.
  - split.
    + intros H. exfalso.
      assert (Hlen : (List.length (filter p l) <= List.length l)%nat)
        by apply filter_length_le.
      rewrite H in Hlen. simpl in Hlen. lia.
    + intros H. specialize (H a (or_introl eq_refl)). congruence.
Qed.

End StorageFacts.

(** X12: after [saveSprite(sprite)] the first sprite of the library with
    the id of [sprite] is [sprite]; a library that had the id keeps its
    order of ids (the sprite is replaced where it stood), one that did not
    has the id appended; the sprites with other ids are those of before, in
    order.  A library that is absent or cannot be parsed counts as empty. *)
Theorem saveSprite_library (st : Storage.store) (sprite : CustomSprite) :
  let after := Storage.saveSprite st sprite in
  find (fun s => String.eqb (Sprite.id s) (Sprite.id sprite))
    (Storage.getSprites after) = Some sprite /\
  Storage.ids after =
    (if existsb (String.eqb (Sprite.id sprite)) (Storage.ids st)
     then Storage.ids st
     else Storage.ids st ++ [Sprite.id sprite]) /\
  filter (fun s => negb (String.eqb (Sprite.id s) (Sprite.id sprite)))
    (Storage.getSprites after) =
  filter (fun s => negb (String.eqb (Sprite.id s) (Sprite.id sprite)))
    (Storage.getSprites st).
Proof.
  exact (StorageFacts.saveSprite_cases sprite st).
Qed.

(** X13: after [deleteSprite(id)] no sprite of the library has the id,
    every copy included; the library holds exactly the sprites of before
    with another id; deleting again changes nothing; and the library is the
    one of before exactly when no sprite had the id. *)
Theorem deleteSprite_library (st : Storage.store) (id : string) :
  let after := Storage.deleteSprite st id in
  ~ In id (Storage.ids after) /\
  (forall s, In s (Storage.getSprites after) <->
             In s (Storage.getSprites st) /\ Sprite.id s <> id) /\
  Storage.deleteSprite after id = after /\
  (Storage.getSprites after = Storage.getSprites st <->
   ~ In id (Storage.ids st)).
Proof.
  intros after. unfold after, Storage.deleteSprite, Storage.ids.
  cbn [Storage.getSprites].
  set (keep := fun s : CustomSprite => negb (String.eqb (Sprite.id s) id)).
  assert (Hkeep : forall s, keep s = true <-> Sprite.id s <> id).
  { intros s. unfold keep. rewrite negb_true_iff. apply String.eqb_neq. }
  repeat split.
  - rewrite in_map_iff. intros (s & <- & Hs).
    apply filter_In in Hs. destruct Hs as (_ & Hs).
    now apply Hkeep in Hs.
  - now apply filter_In in H.
  - apply filter_In in H. now apply Hkeep.
  - intros (Hin & Hne). apply filter_In. split; [exact Hin | now apply Hkeep].
  - f_equal. apply StorageFacts.filter_all.
    intros s Hs. now apply filter_In in Hs.
  - intros E. rewrite in_map_iff. intros (s & <- & Hs).
    rewrite StorageFacts.filter_all in E.
    apply E in Hs. now apply Hkeep in Hs.
  - intros Hnot. apply StorageFacts.filter_all.
    intros s Hs. apply Hkeep. intros <-. apply Hnot.
    now apply in_map.
Qed.

(** X14: the ids of the library stay pairwise distinct: a library whose
    ids are distinct, the absent one among them, still has distinct ids
    after any sequence of [saveSprite] and [deleteSprite] calls. *)
Theorem library_ids_unique (st : Storage.store) (rs : list Storage.request) :
  NoDup (Storage.ids st) -> NoDup (Storage.ids (Storage.run st rs)).
Proof.
  revert st. induction rs as [|r rs IH]; intros st Hnd; [exact Hnd |].
  unfold Storage.run in *. simpl. apply IH.
  destruct r as [sprite | id]; simpl.
  - now apply StorageFacts.NoDup_saveSprite.
  - now apply StorageFacts.NoDup_deleteSprite.
Qed.

(** X15: saving a sprite whose id the library does not hold and deleting
    that id again gives the library of before. *)
Theorem saveSprite_deleteSprite (st : Storage.store) (sprite : CustomSprite) :
  ~ In (Sprite.id sprite) (Storage.ids st) ->
  Storage.getSprites
    (Storage.deleteSprite (Storage.saveSprite st sprite) (Sprite.id sprite)) =
  Storage.getSprites st.
Proof.
  intros Hnot.
  destruct (StorageFacts.saveSprite_cases sprite st) as (_ & _ & Hfilter).
  unfold Storage.deleteSprite. cbn [Storage.getSprites].
  cbv zeta in Hfilter. rewrite Hfilter.
  apply StorageFacts.filter_all. intros s Hs.
  rewrite negb_true_iff. apply String.eqb_neq. intros E. apply Hnot.
  rewrite <- E. unfold Storage.ids. now apply in_map.
Qed.

(** ** Instances *)

(** A placement at (5, 5) and the tile at (5, 6). *)
Lemma placeObject_elsewhere_witness :
  (5%Z, 6%Z) <> (5%Z, 5%Z) /\
  getTile sample_sin
    (placeObject (new_WorldGenerator "test-seed") 5 5 sampleSprite) 5 6 =
  getTile sample_sin (new_WorldGenerator "test-seed") 5 6.
Proof.
  assert (H : (5%Z, 6%Z) <> (5%Z, 5%Z)) by discriminate.
  split; [exact H |].
  apply (placeObject_elsewhere sample_sin
           (new_WorldGenerator "test-seed") 5 5 sampleSprite 5 6 H).
Defined.

(** Two entries, the second with a key no placement produces. *)
Lemma deserialize_serialize_roundtrip_witness :
  NoDup (map fst [("5,6"%string, sampleSprite); ("x"%string, sampleSprite)]) /\
  serializePlacedObjects
    (deserializePlacedObjects (new_WorldGenerator "test-seed")
       [("5,6"%string, sampleSprite); ("x"%string, sampleSprite)]) =
  [("5,6"%string, sampleSprite); ("x"%string, sampleSprite)].
Proof.
  assert (H : NoDup (map fst [("5,6"%string, sampleSprite);
                              ("x"%string, sampleSprite)])).
  { simpl. repeat constructor; simpl; [| tauto].
    intros [H | []]. discriminate H. }
  split; [exact H |].
  apply (deserialize_serialize_roundtrip (new_WorldGenerator "test-seed") _ H).
Defined.

(** An empty [localStorage]: a sprite saved twice and another id deleted. *)
Lemma library_ids_unique_witness :
  NoDup (Storage.ids Storage.Absent) /\
  NoDup (Storage.ids
           (Storage.run Storage.Absent
              [Storage.SaveSprite sampleSprite;
               Storage.SaveSprite sampleSprite;
               Storage.DeleteSprite "tree7"])).
Proof.
  assert (H : NoDup (Storage.ids Storage.Absent)) by constructor.
  split; [exact H |].
  apply (library_ids_unique Storage.Absent _ H).
Defined.

(** A library that cannot be parsed holds no id. *)
Lemma saveSprite_deleteSprite_witness :
  ~ In (Sprite.id sampleSprite) (Storage.ids Storage.Unreadable) /\
  Storage.getSprites
    (Storage.deleteSprite (Storage.saveSprite Storage.Unreadable sampleSprite)
       (Sprite.id sampleSprite)) =
  Storage.getSprites Storage.Unreadable.
Proof.
  assert (H : ~ In (Sprite.id sampleSprite) (Storage.ids Storage.Unreadable))
    by (simpl; tauto).
  split; [exact H |].
  apply (saveSprite_deleteSprite Storage.Unreadable sampleSprite H).
Defined.

(** * The inventory *)

Module InventoryFacts.

Import Inventory.

Lemma read_write_same (i : nat) : forall arr v, read (write arr i v) i = v.
Proof.
  unfold read. induction i as [|i IH]; intros [|a arr] v; simpl; auto.
Qed.

Lemma read_nil (j : nat) : read [] j = Undefined.
Proof. unfold read. now destruct j. Qed.

Lemma read_write_other (i : nat) : forall arr j v,
  i <> j -> read (write arr i v) j = read arr j.
Proof.
  induction i as [|i IH]; intros [|a arr] [|j] v Hne; try congruence;
    try reflexivity.
  - cbn [write]. unfold read. simpl. now destruct j.
  - cbn [write]. change (read (Undefined :: write [] i v) (Datatypes.S j))
      with (read (write [] i v) j).
    rewrite IH by congruence. now rewrite !read_nil.
  - cbn [write]. change (read (a :: write arr i v) (Datatypes.S j))
      with (read (write arr i v) j).
    rewrite IH by congruence. reflexivity.
Qed.

Lemma units_cons (name : string) (s : slot) (arr : list slot) :
  units name (s :: arr) = (units name [s] + units name arr)%Z.
Proof. destruct s; cbn [units]; lia. Qed.

Lemma units_write (name : string) (i : nat) : forall arr v,
  units name (write arr i v) =
  (units name arr - units name [read arr i] + units name [v])%Z.
Proof.
  induction i as [|i IH]; intros [|a arr] v; cbn [write].
  - rewrite read_nil. cbn [units]. lia.
  - rewrite (units_cons name v arr), (units_cons name a arr).
    change (read (a :: arr) 0) with a. lia.
  - rewrite units_cons, IH, !read_nil. cbn [units]. lia.
  - rewrite (units_cons name a (write arr i v)), (units_cons name a arr), IH.
    change (read (a :: arr) (Datatypes.S i)) with (read arr i). lia.
Qed.

Lemma length_write (i : nat) : forall arr v,
  (i < List.length arr)%nat -> List.length (write arr i v) = List.length arr.
Proof.
  induction i as [|i IH]; intros [|a arr] v H; simpl in *; try lia.
  rewrite IH; lia.
Qed.

Lemma read_Item_lt (arr : list slot) (i : nat) (item : InventoryItem) :
  read arr i = Item item -> (i < List.length arr)%nat.
Proof.
  intros H. destruct (Nat.lt_ge_cases i (List.length arr)) as [|Hge]; auto.
  unfold read in H. rewrite nth_overflow in H by exact Hge. discriminate.
Qed.

Lemma read_In (arr : list slot) (i : nat) (item : InventoryItem) :
  read arr i = Item item -> In (Item item) arr.
Proof.
  intros H. rewrite <- H. apply nth_In. now apply read_Item_lt in H.
Qed.

Lemma In_write (s : slot) (i : nat) : forall arr v,
  In s (write arr i v) -> s = v \/ s = Undefined \/ In s arr.
Proof.
  induction i as [|i IH]; intros [|a arr] v; cbn [write]; simpl.
  - intuition.
  - intuition.
  - intros [H | H]; [auto |]. apply IH in H. simpl in H. tauto.
  - intros [H | H]; [auto |]. apply IH in H. tauto.
Qed.

Lemma wellStacked_write (arr : list slot) (i : nat) (v : slot) :
  wellStacked arr ->
  (forall item, v = Item item -> (1 <= count item <= MAX_STACK)%Z) ->
  wellStacked (write arr i v).
Proof.
  intros Harr Hv item Hin. apply In_write in Hin.
  destruct Hin as [H | [H | H]]; [now apply Hv | discriminate | now apply Harr].
Qed.

Lemma findIndex_found (p : slot -> bool) (arr : list slot) : forall i,
  findIndex p arr = Some i ->
  (i < List.length arr)%nat /\ p (read arr i) = true.
Proof.
  induction arr as [|a arr IH]; simpl; intros i; [discriminate |].
  destruct (p a) eqn:E.
  - intros [= <-]. split; [lia | exact E].
  - destruct (findIndex p arr) as [j|]; [| discriminate].
    intros [= <-]. destruct (IH j eq_refl). split; [lia | assumption].
Qed.

Lemma findIndex_missing (p : slot -> bool) (arr : list slot) :
  findIndex p arr = None <-> forall s, In s arr -> p s = false.
Proof.
  induction arr as [|a arr IH]; simpl.
  - split; [intros _ s [] | reflexivity].
  - destruct (p a) eqn:E.
    + split; [discriminate |]. intros H.
      specialize (H a (or_introl eq_refl)). congruence.
    + destruct (findIndex p arr) as [j|].
      * split; [discriminate |]. intros H.
        assert (Hnone : Some j = None)
          by (apply IH; intros s Hs; apply H; now right).
        discriminate.
      * split; [| reflexivity]. intros _ s [<- | Hs]; [exact E |].
        now apply (proj1 IH).
Qed.

Lemma handleGather_cases (name : string) (prev : list slot) :
  (findIndex (stackable name) prev = None /\
   findIndex free prev = None /\
   handleGather name prev = prev) \/
  ((findIndex (stackable name) prev <> None \/ findIndex free prev <> None) /\
   units name (handleGather name prev) = (units name prev + 1)%Z /\
   (forall other, other <> name ->
      units other (handleGather name prev) = units other prev) /\
   List.length (handleGather name prev) = List.length prev /\
   (wellStacked prev -> wellStacked (handleGather name prev))).
Proof.
  unfold handleGather. fold (stackable name). fold free.
  destruct (findIndex (stackable name) prev) as [i|] eqn:Ei.
  - right. apply findIndex_found in Ei. destruct Ei as (Hlt & Hp).
    destruct (read prev i) as [| |item] eqn:Er; try discriminate.
    cbn [stackable] in Hp. apply andb_true_iff in Hp.
    destruct Hp as (Hid & Hcount).
    apply String.eqb_eq in Hid. apply Z.ltb_lt in Hcount.
    split; [left; discriminate |]. split; [| split; [| split]].
    + rewrite units_write, Er. cbn [units id count].
      rewrite Hid, String.eqb_refl. lia.
    + intros other Hne. rewrite units_write, Er. cbn [units id count].
      rewrite Hid.
      assert (E : String.eqb name other = false)
        by (apply String.eqb_neq; congruence).
      rewrite E. lia.
    + now apply length_write.
    + intros Hws. apply wellStacked_write; [exact Hws |].
      intros it [= <-]. cbn [count].
      apply read_In in Er. apply Hws in Er. lia.
  - destruct (findIndex free prev) as [j|] eqn:Ej.
    + right. apply findIndex_found in Ej. destruct Ej as (Hlt & Hp).
      destruct (read prev j) as [| |item] eqn:Er; try discriminate.
      split; [right; discriminate |]. split; [| split; [| split]].
      * rewrite units_write, Er. cbn [units id count].
        rewrite String.eqb_refl. lia.
      * intros other Hne. rewrite units_write, Er. cbn [units id count].
        assert (E : String.eqb name other = false)
          by (apply String.eqb_neq; congruence).
        rewrite E. lia.
      * now apply length_write.
      * intros Hws. apply wellStacked_write; [exact Hws |].
        intros it [= <-]. cbn [count]. unfold MAX_STACK. lia.
    + left. auto.
Qed.

Lemma full_findIndex (name : string) (prev : list slot) :
  (findIndex (stackable name) prev = None /\ findIndex free prev = None) <->
  (~ In Null prev /\
   forall item, In (Item item) prev -> id item = name ->
                (MAX_STACK <= count item)%Z).
Proof.
  rewrite !findIndex_missing. split.
  - intros (Hs & Hf). split.
    + intros Hin. apply Hf in Hin. discriminate.
    + intros item Hin Hid. apply Hs in Hin. cbn [stackable] in Hin.
      rewrite Hid, String.eqb_refl in Hin. simpl in Hin.
      apply Z.ltb_ge in Hin. exact Hin.
  - intros (Hnull & Hitems). split.
    + intros [| |item] Hin; try reflexivity. cbn [stackable].
      destruct (String.eqb (id item) name) eqn:E; [| reflexivity].
      apply String.eqb_eq in E. simpl. apply Z.ltb_ge. now apply Hitems.
    + intros [| |item] Hin; try reflexivity. contradiction.
Qed.

Lemma handleMoveItem_cases (fromIndex toIndex : nat) (prev : list slot) :
  handleMoveItem fromIndex toIndex prev = prev \/
  exists source v w,
    read prev fromIndex = Item source /\ fromIndex <> toIndex /\
    handleMoveItem fromIndex toIndex prev =
      write (write prev toIndex v) fromIndex w /\
    (forall name,
       (units name [v] + units name [w] =
        units name [read prev fromIndex] + units name [read prev toIndex])%Z) /\
    (wellStacked prev ->
     forall item, v = Item item \/ w = Item item ->
                  (1 <= count item <= MAX_STACK)%Z).
Proof.
  unfold handleMoveItem.
  destruct (read prev fromIndex) as [| |source] eqn:Es; auto.
  destruct (Nat.eqb fromIndex toIndex) eqn:Eft; auto.
  apply Nat.eqb_neq in Eft. right. exists source.
  assert (Hs : wellStacked prev -> (1 <= count source <= MAX_STACK)%Z)
    by (intros Hws; apply Hws; now apply read_In in Es).
  destruct (read prev toIndex) as [| |target] eqn:Et.
  - exists (Item source), Null. split; [reflexivity |]; split; [exact Eft |]; split; [reflexivity |]; split.
    + intros name. cbn [units]. lia.
    + intros Hws item [[= <-] | H]; [auto | discriminate].
  - exists (Item source), Null. split; [reflexivity |]; split; [exact Eft |]; split; [reflexivity |]; split.
    + intros name. cbn [units]. lia.
    + intros Hws item [[= <-] | H]; [auto | discriminate].
  - assert (Ht : wellStacked prev -> (1 <= count target <= MAX_STACK)%Z)
      by (intros Hws; apply Hws; now apply read_In in Et).
    destruct (String.eqb (id source) (id target)) eqn:Eid.
    + apply String.eqb_eq in Eid.
      destruct (count source + count target <=? MAX_STACK)%Z eqn:Etot.
      * apply Z.leb_le in Etot.
        exists (Item {| id := id target; count := count source + count target |}),
          Null.
        split; [reflexivity |]; split; [exact Eft |]; split; [reflexivity |]; split.
        -- intros name. cbn [units id count]. rewrite Eid.
           destruct (String.eqb (id target) name); lia.
        -- intros Hws item [[= <-] | H]; [| discriminate]. cbn [count].
           specialize (Hs Hws). specialize (Ht Hws). lia.
      * apply Z.leb_gt in Etot.
        exists (Item {| id := id target; count := MAX_STACK |}),
          (Item {| id := id source;
                   count := count source + count target - MAX_STACK |}).
        split; [reflexivity |]; split; [exact Eft |]; split; [reflexivity |]; split.
        -- intros name. cbn [units id count]. rewrite Eid.
           destruct (String.eqb (id target) name); lia.
        -- intros Hws item [[= <-] | [= <-]]; cbn [count];
             specialize (Hs Hws); specialize (Ht Hws); unfold MAX_STACK in *;
             lia.
    + exists (Item source), (Item target). split; [reflexivity |]; split; [exact Eft |]; split; [reflexivity |]; split.
      * intros name. cbn [units]. lia.
      * intros Hws item [[= <-] | [= <-]]; auto.
Qed.

Lemma length_write_max (i : nat) : forall arr v,
  List.length (write arr i v) = Nat.max (List.length arr) (Datatypes.S i).
Proof.
  induction i as [|i IH]; intros [|a arr] v; cbn [write List.length].
  - reflexivity.
  - lia.
  - rewrite IH. cbn [List.length]. lia.
  - rewrite IH. lia.
Qed.

(** A move that takes place writes the target slot, then the source
    slot. *)
Lemma handleMoveItem_moves (fromIndex toIndex : nat) (prev : list slot)
  (source : InventoryItem) :
  read prev fromIndex = Item source -> fromIndex <> toIndex ->
  exists v w,
    handleMoveItem fromIndex toIndex prev =
    write (write prev toIndex v) fromIndex w.
Proof.
  intros Hs Hne. unfold handleMoveItem. rewrite Hs.
  apply Nat.eqb_neq in Hne. rewrite Hne.
  destruct (read prev toIndex) as [| |target]; eauto.
  destruct (String.eqb (id source) (id target)); eauto.
  destruct (count source + count target <=? MAX_STACK)%Z; eauto.
Qed.



End InventoryFacts.

(** X16: [handleMoveItem] neither creates nor destroys items: whatever the
    two indices, also equal ones, an empty source or indices beyond the end
    of the array, the inventory holds as many units of every item after the
    move as before. *)
Theorem handleMoveItem_conserves_units
  (fromIndex toIndex : nat) (prev : list Inventory.slot) (name : string) :
  Inventory.units name (Inventory.handleMoveItem fromIndex toIndex prev) =
  Inventory.units name prev.
Proof.
  destruct (InventoryFacts.handleMoveItem_cases fromIndex toIndex prev)
    as [-> | (source & v & w & Hs & Hne & -> & Hunits & _)]; [reflexivity |].
  rewrite !InventoryFacts.units_write.
  rewrite InventoryFacts.read_write_other by congruence.
  specialize (Hunits name). lia.
Qed.

(** X17: the stack bounds are an invariant of the three inventory updates:
    when every stack holds between 1 and [MAX_STACK] = 32 units, so does
    every stack after [handleDropItem], after [handleMoveItem] (merging two
    stacks leaves the overflow in the source) and after [handleGather]. *)
Theorem inventory_stacks_bounded
  (prev : list Inventory.slot) (index fromIndex toIndex : nat) (name : string) :
  Inventory.wellStacked prev ->
  Inventory.wellStacked (Inventory.handleDropItem index prev) /\
  Inventory.wellStacked (Inventory.handleMoveItem fromIndex toIndex prev) /\
  Inventory.wellStacked (Inventory.handleGather name prev).
Proof.
  intros Hws. split; [| split].
  - unfold Inventory.handleDropItem.
    destruct (Inventory.read prev index); auto.
    apply InventoryFacts.wellStacked_write; [exact Hws | discriminate].
  - destruct (InventoryFacts.handleMoveItem_cases fromIndex toIndex prev)
      as [-> | (source & v & w & _ & _ & -> & _ & Hvw)]; [exact Hws |].
    apply InventoryFacts.wellStacked_write;
      [apply InventoryFacts.wellStacked_write; [exact Hws |] |];
      intros item E; apply (Hvw Hws); auto.
  - destruct (InventoryFacts.handleGather_cases name prev)
      as [(_ & _ & ->) | (_ & _ & _ & _ & H)]; auto.
Qed.

(** X18: the inventory keeps its number of slots: [handleDropItem] and
    [handleGather] never change it, and [handleMoveItem] keeps it when the
    target index is one of the array; a move to an index beyond the array,
    when it takes place, makes the array end at that index. *)
Theorem inventory_size_kept
  (prev : list Inventory.slot) (index fromIndex toIndex : nat) (name : string) :
  List.length (Inventory.handleDropItem index prev) = List.length prev /\
  List.length (Inventory.handleGather name prev) = List.length prev /\
  List.length (Inventory.handleMoveItem fromIndex toIndex prev) =
    match Inventory.read prev fromIndex with
    | Inventory.Item _ =>
        if Nat.eqb fromIndex toIndex then List.length prev
        else Nat.max (List.length prev) (Datatypes.S toIndex)
    | _ => List.length prev
    end /\
  ((toIndex < List.length prev)%nat ->
   List.length (Inventory.handleMoveItem fromIndex toIndex prev) =
   List.length prev).
Proof.
  assert (Hdrop : List.length (Inventory.handleDropItem index prev) =
                  List.length prev).
  { unfold Inventory.handleDropItem.
    destruct (Inventory.read prev index) eqn:E; auto.
    apply InventoryFacts.length_write.
    now apply InventoryFacts.read_Item_lt in E. }
  assert (Hgather : List.length (Inventory.handleGather name prev) =
                    List.length prev).
  { destruct (InventoryFacts.handleGather_cases name prev)
      as [(_ & _ & ->) | (_ & _ & _ & H & _)]; auto. }
  assert (Hmove : List.length (Inventory.handleMoveItem fromIndex toIndex prev) =
                  match Inventory.read prev fromIndex with
                  | Inventory.Item _ =>
                      if Nat.eqb fromIndex toIndex then List.length prev
                      else Nat.max (List.length prev) (Datatypes.S toIndex)
                  | _ => List.length prev
                  end).
  { destruct (InventoryFacts.handleMoveItem_cases fromIndex toIndex prev)
      as [E | (source & v & w & Hs & Hne & E & _)].
    - rewrite E. unfold Inventory.handleMoveItem in E.
      destruct (Inventory.read prev fromIndex) as [| |source] eqn:Hs; auto.
      destruct (Nat.eqb fromIndex toIndex) eqn:Hft; auto.
      apply Nat.eqb_neq in Hft.
      destruct (InventoryFacts.handleMoveItem_moves fromIndex toIndex prev
                  source Hs Hft) as (v & w & E').
      unfold Inventory.handleMoveItem in E'. rewrite Hs in E'.
      apply Nat.eqb_neq in Hft. rewrite Hft in E'.
      rewrite E' in E. rewrite <- E at 1.
      apply InventoryFacts.read_Item_lt in Hs.
      rewrite !InventoryFacts.length_write_max. lia.
    - rewrite E, Hs.
      apply Nat.eqb_neq in Hne. rewrite Hne.
      apply InventoryFacts.read_Item_lt in Hs.
      rewrite !InventoryFacts.length_write_max. lia. }
  split; [exact Hdrop |]. split; [exact Hgather |]. split; [exact Hmove |].
  intros Hto. rewrite Hmove.
  destruct (Inventory.read prev fromIndex); auto.
  destruct (Nat.eqb fromIndex toIndex); lia.
Qed.

(** X19: [handleGather] leaves the inventory as it is exactly when it is
    full for the item found: no slot is [null] and every stack of that item
    holds [MAX_STACK] units or more. *)
Theorem handleGather_full (name : string) (prev : list Inventory.slot) :
  Inventory.handleGather name prev = prev <->
  (~ In Inventory.Null prev /\
   forall item, In (Inventory.Item item) prev -> Inventory.id item = name ->
                (Inventory.MAX_STACK <= Inventory.count item)%Z).
Proof.
  rewrite <- InventoryFacts.full_findIndex.
  destruct (InventoryFacts.handleGather_cases name prev)
    as [(Hs & Hf & E) | (Hroom & Hunits & _)].
  - tauto.
  - split.
    + intros E. rewrite E in Hunits. lia.
    + intros (Hs & Hf). destruct Hroom; contradiction.
Qed.

(** X20: when the inventory has room for the item found, a stack of it
    below [MAX_STACK] or a [null] slot, [handleGather] adds exactly one
    unit of it and leaves the units of every other item as they are. *)
Theorem handleGather_adds_one (name : string) (prev : list Inventory.slot) :
  (In Inventory.Null prev \/
   exists item, In (Inventory.Item item) prev /\ Inventory.id item = name /\
                (Inventory.count item < Inventory.MAX_STACK)%Z) ->
  Inventory.units name (Inventory.handleGather name prev) =
    (Inventory.units name prev + 1)%Z /\
  forall other, other <> name ->
    Inventory.units other (Inventory.handleGather name prev) =
    Inventory.units other prev.
Proof.
  intros Hroom.
  destruct (InventoryFacts.handleGather_cases name prev)
    as [(Hs & Hf & _) | (_ & Hunits & Hother & _)]; [| auto].
  exfalso.
  destruct (proj1 (InventoryFacts.full_findIndex name prev) (conj Hs Hf))
    as (Hnull & Hitems).
  destruct Hroom as [H | (item & Hin & Hid & Hlt)]; [contradiction |].
  specialize (Hitems item Hin Hid). lia.
Qed.

(** * The explored rectangle *)

Module BoundsFacts.

Lemma SFltb_leb a b : SFltb a b = true -> SFleb a b = true.
Proof. FloatOrder.sf_cases. Qed.

Lemma ltb_leb a b : (a <? b) = true -> (a <=? b) = true.
Proof. rewrite leb_spec, ltb_spec. apply SFltb_leb. Qed.

Lemma leb_refl a : ordered a -> (a <=? a) = true.
Proof.
  intros H. generalize (FloatOrder.ltb_negb_leb a a H H).
  rewrite FloatOrder.ltb_irrefl. now destruct (a <=? a).
Qed.

Lemma not_ltb_leb a b : ordered a -> ordered b -> (a <? b) = false -> (b <=? a) = true.
Proof.
  intros Ha Hb. rewrite (FloatOrder.ltb_negb_leb a b Ha Hb).
  now destruct (b <=? a).
Qed.

(** One axis: the two comparisons of a frame on the interval [lo, hi]. *)
Lemma axis (lo hi c : float) :
  ordered lo -> ordered hi -> ordered c ->
  let lo' := if c <? lo then c else lo in
  let hi' := if hi <? c then c else hi in
  ordered lo' /\ ordered hi' /\
  (lo' <=? c) = true /\ (c <=? hi') = true /\
  (lo' <=? lo) = true /\ (hi <=? hi') = true.
Proof.
  intros Hlo Hhi Hc.
  destruct (c <? lo) eqn:E1; destruct (hi <? c) eqn:E2; cbv zeta;
    repeat split;
    auto using leb_refl, ltb_leb, not_ltb_leb.
Qed.

Lemma updateExplorationBounds_sides (bounds : ExplorationBounds) (cx cy : float) :
  let bounds' := updateExplorationBounds bounds cx cy in
  minX bounds' = (if cx <? minX bounds then cx else minX bounds) /\
  maxX bounds' = (if maxX bounds <? cx then cx else maxX bounds) /\
  minY bounds' = (if cy <? minY bounds then cy else minY bounds) /\
  maxY bounds' = (if maxY bounds <? cy then cy else maxY bounds).
Proof.
  unfold updateExplorationBounds.
  destruct (cx <? minX bounds); cbn [minX maxX minY maxY];
    destruct (maxX bounds <? cx); cbn [minX maxX minY maxY];
    destruct (cy <? minY bounds); cbn [minX maxX minY maxY];
    destruct (maxY bounds <? cy); cbn [minX maxX minY maxY];
    auto.
Qed.

Lemma frame (bounds : ExplorationBounds) (cx cy : float) :
  orderedBounds bounds -> ordered cx -> ordered cy ->
  orderedBounds (updateExplorationBounds bounds cx cy) /\
  inBounds (updateExplorationBounds bounds cx cy) cx cy /\
  withinBounds bounds (updateExplorationBounds bounds cx cy).
Proof.
  intros (H1 & H2 & H3 & H4) Hx Hy.
  destruct (updateExplorationBounds_sides bounds cx cy) as (E1 & E2 & E3 & E4).
  unfold orderedBounds, inBounds, withinBounds.
  rewrite E1, E2, E3, E4.
  destruct (axis (minX bounds) (maxX bounds) cx H1 H2 Hx)
    as (? & ? & ? & ? & ? & ?).
  destruct (axis (minY bounds) (maxY bounds) cy H3 H4 Hy)
    as (? & ? & ? & ? & ? & ?).
  tauto.
Qed.

Lemma withinBounds_trans (a b c : ExplorationBounds) :
  withinBounds a b -> withinBounds b c -> withinBounds a c.
Proof.
  unfold withinBounds. intros (? & ? & ? & ?) (? & ? & ? & ?).
  repeat split; eauto using FloatOrder.leb_trans.
Qed.

Lemma inBounds_within (a b : ExplorationBounds) (cx cy : float) :
  inBounds a cx cy -> withinBounds a b -> inBounds b cx cy.
Proof.
  unfold inBounds, withinBounds. intros (? & ? & ? & ?) (? & ? & ? & ?).
  repeat split; eauto using FloatOrder.leb_trans.
Qed.

Lemma withinBounds_refl (a : ExplorationBounds) :
  orderedBounds a -> withinBounds a a.
Proof.
  intros (? & ? & ? & ?). unfold withinBounds.
  repeat split; now apply leb_refl.
Qed.

End BoundsFacts.

(** X21: the explored rectangle only grows and holds every position
    visited: after the frames of a path whose coordinates are numbers (no
    NaN), starting from a rectangle whose sides are numbers, the rectangle
    contains the one it started from and every position of the path. *)
Theorem explore_covers_path
  (bounds : ExplorationBounds) (path : list (float * float)) :
  orderedBounds bounds ->
  Forall (fun p => ordered (fst p) /\ ordered (snd p)) path ->
  withinBounds bounds (explore bounds path) /\
  Forall (fun p => inBounds (explore bounds path) (fst p) (snd p)) path.
Proof.
  intros Hb Hpath. revert bounds Hb.
  induction Hpath as [|p path (Hx & Hy) Hpath IH]; intros bounds Hb.
  - split; [now apply BoundsFacts.withinBounds_refl | constructor].
  - destruct (BoundsFacts.frame bounds (fst p) (snd p) Hb Hx Hy)
      as (Hb' & Hin & Hwithin).
    destruct (IH _ Hb') as (Hrest & Hall).
    unfold explore in *. cbn [fold_left]. split.
    + eapply BoundsFacts.withinBounds_trans; eassumption.
    + constructor; [| exact Hall].
      eapply BoundsFacts.inBounds_within; eassumption.
Qed.

(** X22: a position whose two coordinates are NaN moves no side of the
    rectangle: the frame returns the rectangle it was given. *)
Theorem updateExplorationBounds_nan
  (bounds : ExplorationBounds) (cx cy : float) :
  isNaN cx = true -> isNaN cy = true ->
  updateExplorationBounds bounds cx cy = bounds.
Proof.
  intros Hx Hy.
  assert (Hnan : forall c a, isNaN c = true ->
                             (c <? a) = false /\ (a <? c) = false).
  { intros c a Hc. split.
    - destruct (c <? a) eqn:E; [| reflexivity].
      apply FloatOrder.ltb_ordered in E. destruct E as (E & _).
      exfalso. apply E. revert Hc. unfold isNaN.
      now destruct (Prim2SF c).
    - destruct (a <? c) eqn:E; [| reflexivity].
      apply FloatOrder.ltb_ordered in E. destruct E as (_ & E).
      exfalso. apply E. revert Hc. unfold isNaN.
      now destruct (Prim2SF c). }
  unfold updateExplorationBounds.
  destruct (Hnan cx (minX bounds) Hx) as (-> & _).
  destruct (Hnan cx (maxX bounds) Hx) as (_ & ->).
  destruct (Hnan cy (minY bounds) Hy) as (-> & _).
  destruct (Hnan cy (maxY bounds) Hy) as (_ & ->).
  reflexivity.
Qed.

(** ** Instances *)

(** Two stacks of wood of 20 units, a free slot, and a move of the first
    stack onto the second. *)
Lemma inventory_stacks_bounded_witness :
  Inventory.wellStacked Inventory.sample /\
  Inventory.wellStacked (Inventory.handleDropItem 0 Inventory.sample) /\
  Inventory.wellStacked (Inventory.handleMoveItem 0 1 Inventory.sample) /\
  Inventory.wellStacked (Inventory.handleGather "wood" Inventory.sample).
Proof.
  assert (H : Inventory.wellStacked Inventory.sample).
  { intros item [E | [E | [E | []]]]; try discriminate E;
      injection E as <-; unfold Inventory.MAX_STACK; simpl; lia. }
  split; [exact H |].
  apply (inventory_stacks_bounded Inventory.sample 0 0 1 "wood" H).
Defined.

Lemma inventory_size_kept_witness :
  (1 < List.length Inventory.sample)%nat /\
  List.length (Inventory.handleMoveItem 0 1 Inventory.sample) =
    List.length Inventory.sample.
Proof.
  assert (H : (1 < List.length Inventory.sample)%nat) by (simpl; lia).
  split; [exact H |].
  apply (inventory_size_kept Inventory.sample 0 0 1 "wood"). exact H.
Defined.

(** Stone is not in the inventory and goes to the free slot. *)
Lemma handleGather_adds_one_witness :
  (In Inventory.Null Inventory.sample \/
   exists item, In (Inventory.Item item) Inventory.sample /\
                Inventory.id item = "stone"%string /\
                (Inventory.count item < Inventory.MAX_STACK)%Z) /\
  Inventory.units "stone" (Inventory.handleGather "stone" Inventory.sample) =
    (Inventory.units "stone" Inventory.sample + 1)%Z /\
  forall other, other <> "stone"%string ->
    Inventory.units other (Inventory.handleGather "stone" Inventory.sample) =
    Inventory.units other Inventory.sample.
Proof.
  assert (H : In Inventory.Null Inventory.sample \/
              exists item, In (Inventory.Item item) Inventory.sample /\
                           Inventory.id item = "stone"%string /\
                           (Inventory.count item < Inventory.MAX_STACK)%Z)
    by (left; simpl; tauto).
  split; [exact H |].
  apply (handleGather_adds_one "stone" Inventory.sample H).
Defined.

(** A walk from the origin to (1.5, -2) and on to (3, 4). *)
Lemma explore_covers_path_witness :
  orderedBounds {| minX := 0; maxX := 0; minY := 0; maxY := 0 |} /\
  Forall (fun p => ordered (fst p) /\ ordered (snd p))
    [(1.5, -2); (3, 4)] /\
  withinBounds {| minX := 0; maxX := 0; minY := 0; maxY := 0 |}
    (explore {| minX := 0; maxX := 0; minY := 0; maxY := 0 |}
       [(1.5, -2); (3, 4)]) /\
  Forall
    (fun p =>
       inBounds
         (explore {| minX := 0; maxX := 0; minY := 0; maxY := 0 |}
            [(1.5, -2); (3, 4)]) (fst p) (snd p))
    [(1.5, -2); (3, 4)].
Proof.
  assert (Hb : orderedBounds {| minX := 0; maxX := 0; minY := 0; maxY := 0 |})
    by (repeat split; vm_compute; discriminate).
  assert (Hp : Forall (fun p => ordered (fst p) /\ ordered (snd p))
                 [(1.5, -2); (3, 4)])
    by (repeat constructor; vm_compute; discriminate).
  split; [exact Hb |]. split; [exact Hp |].
  apply (explore_covers_path _ _ Hb Hp).
Defined.

Lemma updateExplorationBounds_nan_witness :
  isNaN nan = true /\ isNaN nan = true /\
  updateExplorationBounds {| minX := 0; maxX := 0; minY := 0; maxY := 0 |}
    nan nan =
  {| minX := 0; maxX := 0; minY := 0; maxY := 0 |}.
Proof.
  assert (H : isNaN nan = true) by reflexivity.
  split; [exact H |]. split; [exact H |].
  apply (updateExplorationBounds_nan _ nan nan H H).
Defined.

(** * Movement, and the inventory of a saved game *)

Section MovementProperties.

Variable Math_sin : float -> float.
Variable OBJECT_ART_collision : ObjectType -> bool.

(** X23: a placed sprite alone decides a move onto its tile: after
    [placeObject(x, y, sprite)] a move into (x, y) teleports when the
    sprite has a portal, solid or not; otherwise it is refused when the
    sprite is solid and made when it is not, whatever the generator would
    have put on the tile and whatever the object table says. *)
Theorem placed_sprite_decides_movement
  (this : WorldGenerator) (x y : Z) (sprite : CustomSprite)
  (nextX nextY : float) :
  collisionAndPortal Math_sin OBJECT_ART_collision
    (placeObject this x y sprite) x y nextX nextY =
  match Sprite.portal sprite with
  | Some p => Teleport p
  | None =>
      match Sprite.collision sprite with
      | Some true => Stop
      | _ => Move nextX nextY
      end
  end.
Proof.
  unfold collisionAndPortal.
  assert (Hc : customSprite (getTile Math_sin (placeObject this x y sprite) x y)
               = Some sprite).
  { unfold getTile, placeObject. cbn [customSprite placedObjects].
    rewrite JSMapFacts.has_get. apply JSMapFacts.get_set_same. }
  assert (Ho : object (getTile Math_sin (placeObject this x y sprite) x y)
               = None).
  { revert Hc. unfold getTile. cbn [customSprite object].
    rewrite JSMapFacts.has_get. now intros ->. }
  rewrite Hc, Ho.
  destruct (Sprite.portal sprite); [reflexivity |].
  now destruct (Sprite.collision sprite) as [[|]|].
Qed.

(** X24: the terrain stops nobody: a move onto a tile of deep water,
    water, dirt or snow that holds no placed sprite is always made,
    whatever the object table says. *)
Theorem movement_over_open_terrain
  (this : WorldGenerator) (x y : Z) (nextX nextY : float) :
  let tile := getTile Math_sin this x y in
  customSprite tile = None ->
  terrain tile = DEEP_WATER \/ terrain tile = WATER \/
  terrain tile = DIRT \/ terrain tile = SNOW ->
  collisionAndPortal Math_sin OBJECT_ART_collision this x y nextX nextY =
  Move nextX nextY.
Proof.
  intros tile Hc Ht.
  assert (Ho : object tile = None).
  { revert Hc Ht. unfold tile, getTile. cbn [customSprite object terrain].
    rewrite JSMapFacts.has_get.
    destruct (JSMap.get (coordKey x y) (placedObjects this)); [discriminate |].
    intros _. apply proceduralObjectPlacement_sites. }
  unfold collisionAndPortal. fold tile. now rewrite Hc, Ho.
Qed.

End MovementProperties.

(** X25: dropping a slot removes the stack of that slot and nothing
    else: the units of every item go down by those of the slot (none when
    the slot is empty or beyond the array), every other slot reads as
    before, and dropping the same slot again changes nothing. *)
Theorem handleDropItem_removes_stack (index : nat) (prev : list Inventory.slot) :
  let newInv := Inventory.handleDropItem index prev in
  (forall name,
     Inventory.units name newInv =
     (Inventory.units name prev
      - Inventory.units name [Inventory.read prev index])%Z) /\
  (forall other, other <> index ->
     Inventory.read newInv other = Inventory.read prev other) /\
  Inventory.handleDropItem index newInv = newInv.
Proof.
  intros newInv. unfold newInv, Inventory.handleDropItem.
  destruct (Inventory.read prev index) as [| |item] eqn:E.
  - rewrite E. repeat split; auto. intros name. cbn. lia.
  - rewrite E. repeat split; auto. intros name. cbn. lia.
  - rewrite InventoryFacts.read_write_same. repeat split.
    + intros name. rewrite InventoryFacts.units_write, E. cbn. lia.
    + intros other Hne. apply InventoryFacts.read_write_other. congruence.
Qed.



(** ** Instances *)

(** For the seed ["test-seed"] the tile (100, 100) is deep water. *)
Lemma movement_over_open_terrain_witness :
  customSprite
    (getTile sample_sin (new_WorldGenerator "test-seed") 100 100) = None /\
  (terrain (getTile sample_sin (new_WorldGenerator "test-seed") 100 100)
     = DEEP_WATER \/
   terrain (getTile sample_sin (new_WorldGenerator "test-seed") 100 100)
     = WATER \/
   terrain (getTile sample_sin (new_WorldGenerator "test-seed") 100 100)
     = DIRT \/
   terrain (getTile sample_sin (new_WorldGenerator "test-seed") 100 100)
     = SNOW) /\
  collisionAndPortal sample_sin (fun _ => true)
    (new_WorldGenerator "test-seed") 100 100 99.95 100.1 =
  Move 99.95 100.1.
Proof.
  assert (Hc : customSprite
                 (getTile sample_sin (new_WorldGenerator "test-seed") 100 100)
               = None) by reflexivity.
  assert (Ht : terrain (getTile sample_sin (new_WorldGenerator "test-seed")
                          100 100) = DEEP_WATER \/
               terrain (getTile sample_sin (new_WorldGenerator "test-seed")
                          100 100) = WATER \/
               terrain (getTile sample_sin (new_WorldGenerator "test-seed")
                          100 100) = DIRT \/
               terrain (getTile sample_sin (new_WorldGenerator "test-seed")
                          100 100) = SNOW)
    by (left; vm_compute; reflexivity).
  split; [exact Hc |]. split; [exact Ht |].
  apply (movement_over_open_terrain sample_sin (fun _ => true)
           (new_WorldGenerator "test-seed") 100 100 99.95 100.1 Hc Ht).
Defined.

(** * The variant *)

Module VariantFacts.

Import FloatFacts.

Local Open Scope Z_scope.

Lemma iter_shr_1_exact p : forall m,
  SpecFloat.iter_pos shr_1 p
    {| shr_m := Zpos (Pos.iter xO m p); shr_r := false; shr_s := false |} =
  {| shr_m := Zpos m; shr_r := false; shr_s := false |}.
Proof.
  induction p as [p IH|p IH|]; intros m; cbn [SpecFloat.iter_pos Pos.iter].
  - cbn [shr_1 orb]. now rewrite !IH.
  - now rewrite !IH.
  - reflexivity.
Qed.

(** A mantissa that ends in as many zero bits as are shifted out is
    rounded to itself. *)
Lemma binary_round_aux_exact s mz m p ez :
  Zpos mz = Zpos m * 2 ^ Zpos p ->
  fexp prec emax (Zpos (digits2_pos mz) + ez) = ez + Zpos p ->
  ez + Zpos p <= emax - prec ->
  binary_round_aux prec emax s (Zpos mz) ez loc_Exact =
  S754_finite s m (ez + Zpos p).
Proof.
  intros Hmz Hc Hb.
  assert (E : mz = Pos.iter xO m p).
  { apply Pos2Z.inj. now rewrite iter_xO. }
  subst mz.
  unfold binary_round_aux, shr_fexp. cbn [Zdigits2].
  rewrite Hc. replace (ez + Zpos p - ez) with (Zpos p) by lia.
  unfold shr at 1. cbn [shr_record_of_loc].
  rewrite iter_shr_1_exact.
  cbn [shr_m loc_of_shr_record round_nearest_even Zdigits2 shr_record_of_loc].
  rewrite digits2_iter_xO in Hc.
  replace (Zpos (digits2_pos m) + (ez + Zpos p))
    with (Zpos (digits2_pos m) + Zpos p + ez) by lia.
  rewrite Hc, Z.sub_diag. cbn [shr shr_m].
  apply Z.leb_le in Hb. now rewrite Hb.
Qed.

Lemma four_mantissa : Zpos 4503599627370496 = 2 ^ 52.
Proof. reflexivity. Qed.

(** Four times a double of (0, 1]: the mantissa is kept, or doubled once
    or twice for a subnormal. *)
Lemma SFmul_four m e :
  valid_binary (S754_finite false m e) = true -> e <= -52 ->
  exists M k,
    SFmul prec emax (S754_finite false m e)
      (S754_finite false 4503599627370496 (-50)) =
    S754_finite false M (e + 2 - k) /\
    0 <= k <= 2 /\ Zpos M = Zpos m * 2 ^ k.
Proof.
  intros Hv He. cbn [SFmul xorb].
  set (m4 := 4503599627370496%positive).
  assert (Hm4 : Zpos m4 = 2 ^ 52) by exact four_mantissa.
  assert (Hprod : Zpos (m * m4) = Zpos m * 2 ^ 52)
    by (rewrite Pos2Z.inj_mul, Hm4; reflexivity).
  assert (Hdig : Zpos (digits2_pos (m * m4)) = Zpos (digits2_pos m) + 52).
  { replace (m * m4)%positive with (Pos.iter xO m 52).
    - apply digits2_iter_xO.
    - apply Pos2Z.inj. rewrite iter_xO. now rewrite Hprod. }
  clearbody m4.
  pose proof (valid_exponent _ _ _ Hv) as (Hlo & Hnorm).
  pose proof (valid_mantissa_bound _ _ _ Hv) as (Hm & _).
  pose proof (digits2_bounds m) as (Hdlo & Hdhi).
  pose proof (digits2_upper m 53 Hm) as Hd53.
  assert (Hcanon : fexp prec emax (Zpos (digits2_pos m) + e) = e).
  { unfold valid_binary, bounded, canonical_mantissa in Hv.
    apply andb_true_iff in Hv. destruct Hv as [Hv _].
    now apply Z.eqb_eq in Hv. }
  rewrite fexp_eq in Hcanon.
  set (d := Zpos (digits2_pos m)) in *.
  set (E1 := fexp prec emax (d + 52 + (e + -50))).
  assert (HE1 : E1 = Z.max (d + e - 51) (-1074))
    by (unfold E1; rewrite fexp_eq; lia).
  assert (Hn : 50 <= E1 - (e - 50) <= 52) by lia.
  set (k := 52 - (E1 - (e - 50))).
  assert (Hk : 0 <= k <= 2) by (unfold k; lia).
  destruct (E1 - (e - 50)) as [|n|n] eqn:En; try lia.
  exists (Z.to_pos (Zpos m * 2 ^ k)), k.
  assert (HM : Zpos (Z.to_pos (Zpos m * 2 ^ k)) = Zpos m * 2 ^ k).
  { apply Z2Pos.id. apply Z.mul_pos_pos; [lia |]. apply Z.pow_pos_nonneg; lia. }
  split; [| split; [exact Hk | exact HM]].
  replace (e + 2 - k) with (e + -50 + Zpos n) by (unfold k; lia).
  apply binary_round_aux_exact.
  - rewrite Hprod, HM, <- Z.mul_assoc, <- Z.pow_add_r by lia.
    f_equal. f_equal. unfold k. lia.
  - rewrite Hdig. fold d. fold E1. lia.
  - unfold emax, prec. lia.
Qed.

Local Open Scope float_scope.

(** [Math.floor(h * 4)] for a double [h] of the closed interval from 0 to
    1: one of 0, 1, 2, 3 below 1, and 4 at 1. *)
Lemma floor_four (h : float) :
  inUnitSF (Prim2SF h) ->
  (h = 1 /\ Math_floor (h * 4) = 4) \/
  (belowOneSF (Prim2SF h) /\
   exists k, (0 <= k <= 3)%Z /\ (Math_floor (h * 4) =? Z2number k) = true).
Proof.
  intros Hin. pose proof (Prim2SF_valid h) as Hv.
  destruct (Prim2SF h) as [s| | |s m e] eqn:Eh; try contradiction.
  - right. split; [exact I |]. exists 0%Z. split; [lia |].
    rewrite FloatAxioms.eqb_spec. unfold Math_floor.
    rewrite mul_spec, Eh.
    change (Prim2SF 4) with (S754_finite false 4503599627370496 (-50)).
    cbn [SF64mul SFmul]. rewrite mul_spec, Eh.
    change (Prim2SF 4) with (S754_finite false 4503599627370496 (-50)).
    cbn [SF64mul SFmul]. now destruct s.
  - destruct s; [contradiction |]. cbn [inUnitSF] in Hin.
    assert (He : (e <= -52)%Z) by lia.
    destruct (Z.eq_dec e (-52)) as [-> | Hne].
    + left.
      pose proof (valid_exponent _ _ _ Hv) as (_ & Hnorm).
      assert (Hm : Zpos m = Zpos 4503599627370496).
      { rewrite four_mantissa. specialize (Hnorm ltac:(lia)). lia. }
      apply Pos2Z.inj in Hm.
      assert (E1 : h = 1).
      { apply Prim2SF_inj. rewrite Eh, Hm. reflexivity. }
      split; [exact E1 |]. rewrite E1. reflexivity.
    + right. split; [cbn [belowOneSF]; lia |].
      destruct (SFmul_four m e Hv He) as (M & k & Hmul & Hk & HM).
      pose proof (valid_mantissa_bound _ _ _ Hv) as (Hm & _).
      unfold Math_floor. rewrite mul_spec, Eh.
      change (Prim2SF 4) with (S754_finite false 4503599627370496 (-50)).
      unfold SF64mul. rewrite Hmul.
      assert (HE : (0 <=? e + 2 - k)%Z = false) by (apply Z.leb_gt; lia).
      rewrite HE. cbn [cond_Zopp].
      set (K := Z.shiftr (Zpos M) (- (e + 2 - k))).
      assert (HK : (0 <= K <= 3)%Z).
      { unfold K. rewrite Z.shiftr_div_pow2 by lia. rewrite HM.
        assert (Hp : (0 < 2 ^ (- (e + 2 - k)))%Z)
          by (apply Z.pow_pos_nonneg; lia).
        split; [apply Z.div_pos; [| exact Hp];
                apply Z.mul_nonneg_nonneg; [lia | apply Z.pow_nonneg; lia] |].
        apply Z.lt_succ_r. apply Z.div_lt_upper_bound; [exact Hp |].
        change (Z.succ 3) with (2 ^ 2)%Z.
        rewrite <- Z.pow_add_r by lia.
        replace (- (e + 2 - k) + 2)%Z with (- e + k)%Z by lia.
        rewrite Z.pow_add_r by lia.
        apply Z.mul_lt_mono_pos_r; [apply Z.pow_pos_nonneg; lia |].
        eapply Z.lt_le_trans; [exact Hm |].
        apply Z.pow_le_mono_r; lia. }
      exists K. split; [exact HK |].
      assert (HK' : K = 0%Z \/ K = 1%Z \/ K = 2%Z \/ K = 3%Z) by lia.
      clearbody K.
      destruct HK' as [-> | [-> | [-> | ->]]]; reflexivity.
Qed.

End VariantFacts.

Section VariantProperties.

Variable Math_sin : float -> float.

(** X27: the variant of a tile is [Math.floor(noise(x, y, 2) * 4)]: one of
    0, 1, 2 and 3 when the noise is below 1; 4 when the noise is 1; and NaN
    when the noise is NaN.  There is no other case. *)
Theorem getTile_variant_range (this : WorldGenerator) (x y : Z) :
  let tile := getTile Math_sin this x y in
  let h := noise Math_sin (prng this) (Z2number x) (Z2number y) 2 in
  ((h <? 1) = true /\
   exists k, (0 <= k <= 3)%Z /\ (variant tile =? Z2number k) = true) \/
  (h = 1 /\ variant tile = 4) \/
  (isNaN h = true /\ isNaN (variant tile) = true).
Proof.
  intros tile h. unfold tile, getTile. cbn [variant]. fold h.
  unfold noise in h.
  set (n := Math_sin
              (Z2number x * 12.9898 + Z2number y * 78.233
               + Z2number (seed (prng this)) + 2 * 131.2) * 43758.5453) in h.
  destruct (isFinite n) eqn:Hfin.
  - destruct (VariantFacts.floor_four h (FloatFacts.fractional_part_unit n Hfin))
      as [(E1 & E4) | (Hbelow & Hk)].
    + right. left. auto.
    + left. split; [now apply FloatFacts.belowOneSF_bounds | exact Hk].
  - right. right.
    pose proof (fractional_part_nan n Hfin) as Hnan. fold h in Hnan.
    split; [exact Hnan |].
    clearbody h. unfold isNaN in Hnan.
    destruct (Prim2SF h) eqn:Eh; try discriminate Hnan.
    unfold isNaN, Math_floor. rewrite mul_spec, Eh.
    cbn [SF64mul SFmul]. rewrite mul_spec, Eh. reflexivity.
Qed.

End VariantProperties.

(** ** Instances at safe coordinates *)

(** The entry with key ["garbage"] is kept and the tile at (5, 6) is the
    one the well-formed entry gives. *)
Lemma deserialize_keeps_every_entry_witness :
  Number_isSafeInteger 5 /\ Number_isSafeInteger 6 /\
  getTile sample_sin
    (deserializePlacedObjects (new_WorldGenerator "test-seed")
       [("garbage"%string, sampleSprite); ("5,6"%string, sampleSprite)]) 5 6 =
  getTile sample_sin
    (deserializePlacedObjects (new_WorldGenerator "test-seed")
       (filter wellFormedEntry
          [("garbage"%string, sampleSprite); ("5,6"%string, sampleSprite)]))
    5 6.
Proof.
  assert (H5 : Number_isSafeInteger 5) by (unfold Number_isSafeInteger; lia).
  assert (H6 : Number_isSafeInteger 6) by (unfold Number_isSafeInteger; lia).
  split; [exact H5 |]. split; [exact H6 |].
  apply (deserialize_keeps_every_entry sample_sin
           (new_WorldGenerator "test-seed")
           [("garbage"%string, sampleSprite); ("5,6"%string, sampleSprite)]);
    assumption.
Defined.

(** Placements at (5, 5) and (-3, 7). *)
Lemma serializePlacedObjects_placements_witness :
  Forall (fun p => Number_isSafeInteger (fst (fst p)) /\
                   Number_isSafeInteger (snd (fst p)))
    [(5%Z, 5%Z, sampleSprite); ((-3)%Z, 7%Z, sampleSprite)] /\
  forallb wellFormedEntry
    (serializePlacedObjects
       (after sample_sin (new_WorldGenerator "test-seed")
          (placements [(5%Z, 5%Z, sampleSprite); ((-3)%Z, 7%Z, sampleSprite)])))
  = true.
Proof.
  assert (H : Forall (fun p => Number_isSafeInteger (fst (fst p)) /\
                               Number_isSafeInteger (snd (fst p)))
                [(5%Z, 5%Z, sampleSprite); ((-3)%Z, 7%Z, sampleSprite)])
    by (repeat constructor; unfold Number_isSafeInteger; simpl; lia).
  split; [exact H |].
  apply (serializePlacedObjects_placements sample_sin "test-seed"
           [(5%Z, 5%Z, sampleSprite); ((-3)%Z, 7%Z, sampleSprite)]).
  exact H.
Defined.
